(** * Crossword CSP solver: a shallow embedding of [generate.py]

    The development follows [CrosswordCreator]: the domain store
    ([self.domains], a dict from variables to sets of words), node
    consistency, [revise] and [ac3], the consistency checker, the two ordering
    heuristics and the backtracking search.

    Python dicts are [gmap]s and Python sets are [gset]s; a [for] loop over
    one of them walks [map_to_list] or [elements].  Python exceptions
    ([KeyError], [IndexError], [TypeError]) are the outcome [Raise]; the two
    loops whose termination is not structural ([ac3]'s work list and the
    recursion of [backtrack]) carry a step budget and report [Timeout] when
    it runs out. *)

From Stdlib Require Import Ascii String.
From stdpp Require Import base option list sorting gmap sets strings.

(** ** Outcomes of fallible code *)

Inductive res (A : Type) : Type :=
  | Done (a : A)
  | Raise
  | Timeout.
Arguments Done {A} a.
Arguments Raise {A}.
Arguments Timeout {A}.

#[global] Instance res_eq_dec {A} `{EqDecision A} : EqDecision (res A).
Proof. solve_decision. Defined.

#[global] Instance res_ret : MRet res := λ A a, Done a.
#[global] Instance res_bind : MBind res := λ A B f m,
  match m with
  | Done a => f a
  | Raise => Raise
  | Timeout => Timeout
  end.

(** [d[k]] on a dict, [w[i]] on a string: they raise when the key is absent
    or the index is out of range. *)
Definition of_option {A} (o : option A) : res A :=
  match o with
  | Some a => Done a
  | None => Raise
  end.

(** [for x in l: if not f(x): return False] followed by [return True]. *)
Fixpoint all_res {A} (f : A → res bool) (l : list A) : res bool :=
  match l with
  | [] => Done true
  | x :: l' =>
      b ← f x;
      if b : bool then all_res f l' else Done false
  end.

(** A loop that threads a state through the elements of [l]. *)
Fixpoint fold_res {A S} (f : S → A → res S) (s : S) (l : list A) : res S :=
  match l with
  | [] => Done s
  | x :: l' => s' ← f s x; fold_res f s' l'
  end.

(** ** The puzzle structure *)

Inductive Direction : Set := ACROSS | DOWN.

(** Modelled from the spec: the slot class of [crossword.py] (not among the
    sources).  A slot has a starting row and column, a direction and a
    length; two slots are equal iff the four attributes are. *)
Record Var : Set := mkVar {
  var_i : nat;
  var_j : nat;
  var_direction : Direction;
  var_length : nat
}.

#[global] Instance Direction_eq_dec : EqDecision Direction.
Proof. solve_decision. Defined.

#[global] Instance Var_eq_dec : EqDecision Var.
Proof. solve_decision. Defined.

Definition Var_to_tuple (v : Var) : nat * nat * bool * nat :=
  (var_i v, var_j v,
   match var_direction v with ACROSS => false | DOWN => true end,
   var_length v).

Definition Var_of_tuple (t : nat * nat * bool * nat) : Var :=
  let '(i, j, b, n) := t in mkVar i j (if b then DOWN else ACROSS) n.

#[global] Instance Var_countable : Countable Var.
Proof.
  apply (inj_countable' Var_to_tuple Var_of_tuple).
  by intros [i j [] n].
Defined.

(** Modelled from the spec: the puzzle object of [crossword.py] (not among
    the sources): the set of slots, the vocabulary and the overlap lookup,
    which gives for a pair of crossing slots the index into the first one's
    word and the index into the second one's word, and nothing for a pair
    that does not cross. *)
Record Crossword : Type := mkCrossword {
  variables : gset Var;
  words : gset string;
  overlaps : Var → Var → option (nat * nat)
}.

(** Modelled from the spec: [crossword.neighbors(x)] is the set of all slots
    [y ≠ x] sharing an overlap with [x]; each call builds a new set. *)
Definition neighbors (cw : Crossword) (x : Var) : gset Var :=
  filter (λ y, y ≠ x ∧ is_Some (overlaps cw x y)) (variables cw).

(** The cells of a slot and the overlap of two slots of a grid, used to
    build puzzles from slot lists. *)
Definition cells (v : Var) : list (nat * nat) :=
  (λ k, match var_direction v with
        | DOWN => (var_i v + k, var_j v)
        | ACROSS => (var_i v, var_j v + k)
        end) <$> seq 0 (var_length v).

Fixpoint index_of {A} `{EqDecision A} (x : A) (l : list A) : option nat :=
  match l with
  | [] => None
  | y :: l' => if decide (x = y) then Some 0 else S <$> index_of x l'
  end.

Definition grid_overlaps (x y : Var) : option (nat * nat) :=
  if decide (x = y) then None else
  match filter (λ c, c ∈ cells y) (cells x) with
  | [] => None
  | c :: _ =>
      ix ← index_of c (cells x);
      iy ← index_of c (cells y);
      Some (ix, iy)
  end.

Definition grid_crossword (slots : list Var) (vocabulary : list string)
    : Crossword :=
  mkCrossword (list_to_set slots) (list_to_set vocabulary) grid_overlaps.

(** ** The domain store *)

(** [self.domains]: a dict from slots to sets of words. *)
Abbreviation domains := (gmap Var (gset string)) (only parsing).
Abbreviation assignment := (gmap Var string) (only parsing).

(** [__init__]: every slot starts with a copy of the whole vocabulary. *)
Definition init_domains (cw : Crossword) : domains :=
  gset_to_gmap (words cw) (variables cw).

(** [s[i]] for a string [s]. *)
Definition letter (w : string) (i : nat) : res ascii :=
  of_option (String.get i w).

(** ** Node consistency *)

(** The inner loop of [enforce_node_consistency]: over a copy of the domain
    of [v], remove each word whose length is not that of [v]. *)
Definition node_filter (v : Var) (X : gset string) : gset string :=
  foldl (λ cur x,
           if decide (String.length x ≠ var_length v) then cur ∖ {[x]} else cur)
        X (elements X).

(** [for v in self.domains]: the keys are those of the dict itself, so
    [self.domains[v]] is always there. *)
Definition enforce_node_consistency (d : domains) : domains :=
  foldl (λ cur v, <[v := node_filter v (cur !!! v)]> cur) d (elements (dom d)).

(** ** Arc consistency *)

(** [{word_y[iy] for word_y in dy}] *)
Definition letters_at (iy : nat) (dy : gset string) : res (gset ascii) :=
  fold_res (λ acc w, c ← letter w iy; Done ({[c]} ∪ acc)) ∅ (elements dy).

(** One turn of the loop of [revise] over the copy of the domain of [x]. *)
Definition revise_step (x : Var) (ix : nat) (compatible : gset ascii)
    (st : domains * bool) (word_x : string) : res (domains * bool) :=
  c ← letter word_x ix;
  if decide (c ∉ compatible) then
    dx ← of_option (st.1 !! x);
    Done (<[x := dx ∖ {[word_x]}]> (st.1), true)
  else Done st.

(** [revise(x, y)] returns the updated store and the change flag. *)
Definition revise (cw : Crossword) (d : domains) (x y : Var)
    : res (domains * bool) :=
  intersection_index ← of_option (overlaps cw x y);
  dy ← of_option (d !! y);
  compatible_y_values ← letters_at (intersection_index.2) dy;
  dx ← of_option (d !! x);
  fold_res (revise_step x (intersection_index.1) compatible_y_values)
           (d, false) (elements dx).

(** The initial work list of [ac3], in the order of the [append]s. *)
Definition all_arcs (cw : Crossword) : list (Var * Var) :=
  x ← elements (variables cw);
  y ← elements (neighbors cw x);
  [(x, y)].

(** The work list is a Python list used as a stack: [pop()] takes its last
    element and [append] adds after it.  The stack is kept with its top
    first, so a Python list [arcs] is the stack [reverse arcs]. *)
Definition push_neighbors (cw : Crossword) (x y : Var)
    (stack : list (Var * Var)) : list (Var * Var) :=
  foldl (λ stk neighbor,
           if decide (neighbor ≠ y) then (x, neighbor) :: stk else stk)
        stack (elements (neighbors cw x)).

(** The state of [ac3] after a turn of its [while] loop: still running with
    a store and a work list, or returned with its boolean. *)
Inductive ac3_state : Type :=
  | Running (d : domains) (stack : list (Var * Var))
  | Returned (d : domains) (b : bool).

#[global] Instance ac3_state_eq_dec : EqDecision ac3_state.
Proof. solve_decision. Defined.

(** One turn of the loop, for the arc that [pop()] gave. *)
Definition ac3_step (cw : Crossword) (d : domains) (current_arc : Var * Var)
    (rest : list (Var * Var)) : res ac3_state :=
  '(d', changed) ← revise cw d (current_arc.1) (current_arc.2);
  if changed : bool then
    dx ← of_option (d' !! current_arc.1);
    if decide (size dx = 0) then Done (Returned d' false)
    else Done (Running d'
                 (push_neighbors cw (current_arc.1) (current_arc.2) rest))
  else Done (Running d' rest).

Fixpoint ac3_loop (cw : Crossword) (fuel : nat) (d : domains)
    (stack : list (Var * Var)) : res (domains * bool) :=
  match stack with
  | [] => Done (d, true)
  | current_arc :: rest =>
      match fuel with
      | 0 => Timeout
      | S fuel' =>
          st ← ac3_step cw d current_arc rest;
          match st with
          | Returned d' b => Done (d', b)
          | Running d' stack' => ac3_loop cw fuel' d' stack'
          end
      end
  end.

(** The number of candidate words left in the store. *)
Definition total_size (d : domains) : nat :=
  sum_list_with (λ item, size item.2) (map_to_list d).

(** Every turn of the loop either removes a word or shortens the list, and a
    turn that removes a word adds fewer arcs than there are slots. *)
Definition ac3_fuel (cw : Crossword) (d : domains) (arcs : list (Var * Var))
    : nat :=
  length arcs + total_size d * S (size (variables cw)).

(** [ac3(arcs)]; [None] is the default argument. *)
Definition ac3 (cw : Crossword) (d : domains)
    (arcs : option (list (Var * Var))) : res (domains * bool) :=
  let arcs := default (all_arcs cw) arcs in
  ac3_loop cw (ac3_fuel cw d arcs) d (reverse arcs).

(** ** Assignments *)

(** [assignment.get(variable)] is [None] or a word; [not] of it holds for
    [None] and for the empty word, and the second test is only reached for a
    word. *)
Definition assignment_complete (cw : Crossword) (a : assignment) : bool :=
  forallb (λ variable,
             match a !! variable with
             | None => false
             | Some w =>
                 if decide (w = ""%string) then false
                 else bool_decide (0 < String.length w)%nat
             end)
          (elements (variables cw)).

Definition consistent (cw : Crossword) (a : assignment) : res bool :=
  let values := (map_to_list a).*2 in
  if decide (size (list_to_set (C:=gset string) values) ≠ length values)
  then Done false
  else if negb (forallb (λ variable,
                   match a !! variable with
                   | Some w => bool_decide (String.length w = var_length variable)
                   | None => true
                   end) (elements (variables cw)))
  then Done false
  else
    all_res (λ item : Var * string,
       all_res (λ neighbor,
          intersection_index ← of_option (overlaps cw (item.1) neighbor);
          match a !! neighbor with
          | Some wn =>
              c1 ← letter (item.2) (intersection_index.1);
              c2 ← letter wn (intersection_index.2);
              Done (bool_decide (c1 = c2))
          | None => Done true
          end) (elements (neighbors cw (item.1))))
      (map_to_list a).

(** ** Python's [sorted]: a stable sort by a key *)

Fixpoint insert_by {A} (key : A → nat) (x : A) (l : list A) : list A :=
  match l with
  | [] => [x]
  | y :: l' => if decide (key x ≤ key y)%nat then x :: l else y :: insert_by key x l'
  end.

(** [sorted(l, key=key)] *)
Definition sorted {A} (key : A → nat) (l : list A) : list A :=
  foldr (insert_by key) [] l.

Fixpoint insert_by_reverse {A} (key : A → nat) (x : A) (l : list A) : list A :=
  match l with
  | [] => [x]
  | y :: l' =>
      if decide (key y ≤ key x)%nat then x :: l else y :: insert_by_reverse key x l'
  end.

(** [sorted(l, key=key, reverse=True)]: descending, and still stable. *)
Definition sorted_reverse {A} (key : A → nat) (l : list A) : list A :=
  foldr (insert_by_reverse key) [] l.

(** ** Ordering heuristics *)

(** The two inner loops of [order_domain_values] for one word of the
    domain. *)
Definition elimination_count (cw : Crossword) (d : domains) (var : Var)
    (nbrs : list Var) (w : string) : res nat :=
  fold_res (λ count neighbor,
      intersection_index ← of_option (overlaps cw var neighbor);
      dn ← of_option (d !! neighbor);
      fold_res (λ count neighbor_domain,
          c1 ← letter w (intersection_index.1);
          c2 ← letter neighbor_domain (intersection_index.2);
          Done (if decide (c1 ≠ c2) then S count else count))
        count (elements dn))
    0 nbrs.

(** [ordered_domains] is a dict whose keys, the words of a set, are
    distinct: it is the list of its items in insertion order, and sorting it
    by its values sorts the items. *)
Definition order_domain_values (cw : Crossword) (d : domains) (var : Var)
    (a : assignment) : res (list string) :=
  let nbrs := neighbors cw var in
  let nbrs :=
    foldl (λ cur neighbor,
             if decide (neighbor ∈ dom a) then cur ∖ {[neighbor]} else cur)
          nbrs (elements nbrs) in
  dvar ← of_option (d !! var);
  ordered_domains ←
    fold_res (λ acc domain,
        c ← elimination_count cw d var (elements nbrs) domain;
        Done (acc ++ [(domain, c)]))
      [] (elements dvar);
  Done ((sorted snd ordered_domains).*1).

(** [ordered_variables] maps each unassigned slot to its domain size and its
    degree; as above it is the list of its items. *)
Definition select_unassigned_variable (cw : Crossword) (d : domains)
    (a : assignment) : res Var :=
  ordered_variables ←
    fold_res (λ acc variable,
        if decide (variable ∈ dom a) then Done acc
        else
          dv ← of_option (d !! variable);
          Done (acc ++ [(variable, (size dv, size (neighbors cw variable)))]))
      [] (elements (variables cw));
  let highest_degree :=
    sorted_reverse (λ x : Var * (nat * nat), x.2.2) ordered_variables in
  let remaining_values :=
    sorted (λ x : Var * (nat * nat), x.2.1) highest_degree in
  of_option (head (remaining_values.*1)).

(** ** Backtracking search *)

(** [del assignment[var]] *)
Definition del (var : Var) (a : assignment) : res assignment :=
  if decide (is_Some (a !! var)) then Done (delete var a) else Raise.

(** [backtrack] works on one dict, shared by all its activations: it takes
    the dict's contents and gives back the contents at its return, whether it
    returned the dict ([true]) or [None] ([false]), and how many activations
    of [backtrack] there were (a ghost counter).

    [try_values] is the [for] loop over the ordered values, [rec] being the
    recursive call.  [if result] is false for [None] and for an empty
    dict. *)
Fixpoint try_values (cw : Crossword)
    (rec : assignment → res (assignment * bool * nat))
    (var : Var) (values : list string) (a : assignment) (calls : nat)
    : res (assignment * bool * nat) :=
  match values with
  | [] => Done (a, false, calls)
  | value :: rest =>
      let a1 := <[var := value]> a in
      ok ← consistent cw a1;
      if ok : bool then
        '(a2, result, n) ← rec a1;
        if result && bool_decide (a2 ≠ ∅)
        then Done (a2, true, calls + n)
        else a3 ← del var a2; try_values cw rec var rest a3 (calls + n)
      else a3 ← del var a1; try_values cw rec var rest a3 calls
  end.

Fixpoint backtrack (cw : Crossword) (d : domains) (fuel : nat)
    (a : assignment) : res (assignment * bool * nat) :=
  match fuel with
  | 0 => Timeout
  | S fuel' =>
      if assignment_complete cw a then Done (a, true, 1)
      else
        var ← select_unassigned_variable cw d a;
        values ← order_domain_values cw d var a;
        try_values cw (backtrack cw d fuel') var values a 1
  end.

(** What [solve] returns, and how many activations of [backtrack] it
    caused. *)
Definition solve (cw : Crossword) : res (option assignment * nat) :=
  let d := enforce_node_consistency (init_domains cw) in
  '(d', _) ← ac3 cw d None;
  '(a, result, calls) ← backtrack cw d' (S (size (variables cw))) ∅;
  Done (if result : bool then Some a else None, calls).

(** ** Properties of stores and assignments *)

(** The letter of [w] at the crossing is one of the letters [C]. *)
Definition supported_by (C : gset ascii) (ix : nat) (w : string) : Prop :=
  ∃ c, String.get ix w = Some c ∧ c ∈ C.

#[global] Instance supported_by_dec C ix w : Decision (supported_by C ix w).
Proof.
  unfold supported_by. destruct (String.get ix w) as [c|].
  - destruct (decide (c ∈ C));
      [left; eauto|right; intros (? & ? & ?); by simplify_eq].
  - right. by intros (? & ? & ?).
Defined.

(** A word has support in [Y] when some word of [Y] carries the same letter
    at the crossing. *)
Definition has_support (ix iy : nat) (Y : gset string) (w : string) : Prop :=
  ∃ w' c, w' ∈ Y ∧ String.get ix w = Some c ∧ String.get iy w' = Some c.

Definition node_consistent (d : domains) : Prop :=
  ∀ v X w, d !! v = Some X → w ∈ X → String.length w = var_length v.

Definition arc_consistent (cw : Crossword) (d : domains) : Prop :=
  ∀ x y ix iy X Y w,
    x ∈ variables cw → y ∈ neighbors cw x →
    overlaps cw x y = Some (ix, iy) →
    d !! x = Some X → d !! y = Some Y → w ∈ X →
    has_support ix iy Y w.

(** The overlap indices of the slots of the puzzle lie inside the slots. *)
Definition wf_overlaps (cw : Crossword) : Prop :=
  ∀ x y ix iy,
    x ∈ variables cw → y ∈ variables cw →
    overlaps cw x y = Some (ix, iy) →
    ix < var_length x ∧ iy < var_length y.

Definition valid_arc (cw : Crossword) (arc : Var * Var) : Prop :=
  arc.1 ∈ variables cw ∧ arc.2 ∈ neighbors cw (arc.1).

Definition distinct_values (a : assignment) : Prop :=
  ∀ x y w, a !! x = Some w → a !! y = Some w → x = y.

Definition lengths_match (a : assignment) : Prop :=
  ∀ x w, a !! x = Some w → String.length w = var_length x.

Definition overlaps_agree (cw : Crossword) (a : assignment) : Prop :=
  ∀ x y wx wy ix iy,
    a !! x = Some wx → a !! y = Some wy → y ∈ neighbors cw x →
    overlaps cw x y = Some (ix, iy) →
    ∃ c, String.get ix wx = Some c ∧ String.get iy wy = Some c.

Definition domain_size (d : domains) (v : Var) : nat := size (d !!! v).

Definition degree (cw : Crossword) (v : Var) : nat := size (neighbors cw v).

(** Following the spec: the number of candidate words of [neighbor] whose
    letter at the neighbor's overlap index differs from the letter of [w] at
    the overlap index of [var]. *)
Definition conflicts (cw : Crossword) (d : domains) (var : Var) (w : string)
    (neighbor : Var) : nat :=
  match overlaps cw var neighbor with
  | Some (ix, iy) =>
      size (filter (λ w', String.get iy w' ≠ String.get ix w) (d !!! neighbor))
  | None => 0
  end.

(** Following the spec: the sum of the conflicts of [w] over the neighbors
    of [var] that are not yet assigned. *)
Definition elimination_count_spec (cw : Crossword) (d : domains)
    (a : assignment) (var : Var) (w : string) : nat :=
  sum_list_with (conflicts cw d var w)
    (elements (filter (λ n, n ∉ dom a) (neighbors cw var))).

(** A call of the search that returns [None] leaves the dict as it found
    it. *)
Definition restoring (rec : assignment → res (assignment * bool * nat))
    : Prop :=
  ∀ a r n, rec a = Done (r, false, n) → r = a.

(** The assignments that the search builds. *)
Definition search_assignment (cw : Crossword) (a : assignment) : Prop :=
  dom a ⊆ variables cw ∧ lengths_match a.

(** What a dict returned by a call of the search satisfies. *)
Definition sound_call (cw : Crossword)
    (rec : assignment → res (assignment * bool * nat)) : Prop :=
  ∀ a r n, rec a = Done (r, true, n) →
    assignment_complete cw r = true ∧ (r = a ∨ consistent cw r = Done true).

(** [solve] returning no solution without any activation of [backtrack]
    once [ac3] has reported failure. *)
Definition short_circuits (cw : Crossword) : Prop :=
  ∀ d', ac3 cw (enforce_node_consistency (init_domains cw)) None
        = Done (d', false) →
        solve cw = Done (None, 0).

(** Two crossing slots of lengths two and three, and the 4-cycle of the
    grid
<<
      . D . . .
      . A A A .
      . D . D .
      B B B B .
      . D . D .
      . . . D .
      . . . D .
>>
    whose four slots have four different lengths. *)
Module Examples.
Definition h2 := mkVar 0 0 ACROSS 2.
Definition v3 := mkVar 0 0 DOWN 3.
Definition clash := grid_crossword [h2; v3] ["AB"; "CDE"]%string.

Definition a1 := mkVar 1 1 ACROSS 3.
Definition a2 := mkVar 3 0 ACROSS 4.
Definition d1 := mkVar 0 1 DOWN 5.
Definition d2 := mkVar 1 3 DOWN 6.
Definition ring := grid_crossword [a1; a2; d1; d2]
  ["ABA"; "EBD"; "BABAB"; "BXBBB"; "BEBAB"; "BABA"; "BBBC";
   "ABABBB"; "DBCBBB"]%string.

(** The store [ac3] leaves on [clash]. *)
Definition clash_after_ac3 : domains :=
  {[ h2 := {["AB"]}%string; v3 := ∅ ]}.

(** The store after node consistency on [ring], and after revising the
    arc [(d1, a1)] in it. *)
Definition ring_domains : domains :=
  {[ a1 := {["ABA"; "EBD"]}%string;
     a2 := {["BABA"; "BBBC"]}%string;
     d1 := {["BABAB"; "BXBBB"; "BEBAB"]}%string;
     d2 := {["ABABBB"; "DBCBBB"]}%string ]}.
Definition ring_revised : domains :=
  <[ d1 := {["BABAB"; "BEBAB"]}%string ]> ring_domains.

(** The assignment the search finds on [ring_domains]. *)
Definition ring_solution : assignment :=
  {[ a1 := "ABA"%string; a2 := "BABA"%string;
     d1 := "BABAB"%string; d2 := "ABABBB"%string ]}.

(** The store [ac3] leaves on [ring]. *)
Definition ring_after_ac3 : domains :=
  {[ a1 := {["ABA"; "EBD"]}%string;
     a2 := {["BABA"; "BBBC"]}%string;
     d1 := {["BABAB"; "BEBAB"]}%string;
     d2 := {["ABABBB"; "DBCBBB"]}%string ]}.

(** The stores that [ac3] can reach on [ring]: the chain of removals
    BXBBB, BBBC, DBCBBB, EBD, each one having lost its only support by the
    removal before it. *)
Definition ring_stage (k : nat) : domains :=
  match k with
  | 0 => ring_domains
  | 1 => ring_revised
  | 2 => <[ a2 := {["BABA"]}%string ]> ring_revised
  | 3 => <[ d2 := {["ABABBB"]}%string ]>
           (<[ a2 := {["BABA"]}%string ]> ring_revised)
  | _ => <[ a1 := {["ABA"]}%string ]>
           (<[ d2 := {["ABABBB"]}%string ]>
              (<[ a2 := {["BABA"]}%string ]> ring_revised))
  end.

(** The stage reached from stage [k] by a turn of the loop for [arc], and
    the arcs that the turn adds. *)
Definition ring_next (k : nat) (arc : Var * Var) : nat * list (Var * Var) :=
  if decide (k = 0 ∧ arc = (d1, a1)) then (1, [(d1, a2)])
  else if decide (k = 1 ∧ arc = (a2, d1)) then (2, [(a2, d2)])
  else if decide (k = 2 ∧ arc = (d2, a2)) then (3, [(d2, a1)])
  else if decide (k = 3 ∧ arc = (a1, d2)) then (4, [(a1, d1)])
  else (k, []).

(** What the loop of [ac3] maintains on [ring]: the arc [(d1, a1)] is in the
    work list at most once, and no more once BXBBB is removed. *)
Definition ring_invariant (k : nat) (stack : list (Var * Var)) : Prop :=
  k ≤ 4 ∧ Forall (λ arc, arc ∈ all_arcs ring) stack ∧
  if decide (k = 0) then NoDup stack else (d1, a1) ∉ stack.
End Examples.

(** ** Stores, solutions and the letter grid *)

(** The store [d'] has the keys of [d] and no word that [d] does not
    have. *)
Definition store_le (d' d : domains) : Prop :=
  dom d' = dom d ∧
  ∀ v X', d' !! v = Some X' → ∃ X, d !! v = Some X ∧ X' ⊆ X.

(** Every assigned word is in the domain of its slot. *)
Definition within (d : domains) (a : assignment) : Prop :=
  ∀ v w, a !! v = Some w → ∃ X, d !! v = Some X ∧ w ∈ X.

(** A solution of the puzzle: exactly the slots of the puzzle are assigned,
    to distinct words of the right lengths that agree at the crossings. *)
Definition solution (cw : Crossword) (s : assignment) : Prop :=
  dom s = variables cw ∧
  distinct_values s ∧ lengths_match s ∧ overlaps_agree cw s.

(** A call of the search that returns a dict keeps its words within the
    domains. *)
Definition within_call (d : domains)
    (rec : assignment → res (assignment * bool * nat)) : Prop :=
  ∀ a r n, within d a → rec a = Done (r, true, n) → within d r.

(** ** [letter_grid] *)

(** The cell of the [k]-th letter of a slot. *)
Definition cell_of (variable : Var) (k : nat) : nat * nat :=
  (var_i variable + (if decide (var_direction variable = DOWN) then k else 0),
   var_j variable + (if decide (var_direction variable = ACROSS) then k else 0)).

(** [letters[i][j] = c]: both indexings raise out of range. *)
Definition set_cell (letters : list (list (option ascii))) (i j : nat)
    (c : ascii) : res (list (list (option ascii))) :=
  row ← of_option (letters !! i);
  if decide (j < length row)
  then Done (<[i := <[j := Some c]> row]> letters)
  else Raise.

(** The loop over [range(len(word))] for one item of the assignment. *)
Definition write_word (letters : list (list (option ascii)))
    (item : Var * string) : res (list (list (option ascii))) :=
  fold_res (λ letters k,
      c ← letter (item.2) k;
      set_cell letters (cell_of (item.1) k).1 (cell_of (item.1) k).2 c)
    letters (seq 0 (String.length (item.2))).

(** [letter_grid(assignment)]; the height and the width of the puzzle are
    fields of the puzzle object of [crossword.py] and are taken as
    arguments. *)
Definition letter_grid (height width : nat) (a : assignment)
    : res (list (list (option ascii))) :=
  fold_res write_word (replicate height (replicate width None)) (map_to_list a).

(** The content of a cell of a grid. *)
Definition grid_at (letters : list (list (option ascii))) (cell : nat * nat)
    : option (option ascii) :=
  row ← letters !! cell.1; row !! cell.2.

(** Words that share a cell carry the same letter there. *)
Definition cells_agree (a : assignment) : Prop :=
  ∀ v1 w1 k1 c1 v2 w2 k2 c2,
    a !! v1 = Some w1 → String.get k1 w1 = Some c1 →
    a !! v2 = Some w2 → String.get k2 w2 = Some c2 →
    cell_of v1 k1 = cell_of v2 k2 → c1 = c2.

(** Every letter of every assigned word falls inside the grid. *)
Definition fits (height width : nat) (a : assignment) : Prop :=
  ∀ v w k, a !! v = Some w → k < String.length w →
    (cell_of v k).1 < height ∧ (cell_of v k).2 < width.

(** The writes of [letter_grid], in the order in which it makes them. *)
Definition word_writes (item : Var * string) : list (nat * nat * ascii) :=
  imap (λ k c, (cell_of (item.1) k, c)) (list_ascii_of_string (item.2)).

Definition apply_writes (letters : list (list (option ascii)))
    (writes : list (nat * nat * ascii)) : res (list (list (option ascii))) :=
  fold_res (λ letters write,
      set_cell letters (write.1.1) (write.1.2) (write.2))
    letters writes.

(** A grid of [height] rows of [width] cells. *)
Definition grid_shape (height width : nat)
    (letters : list (list (option ascii))) : Prop :=
  length letters = height ∧ Forall (λ row, length row = width) letters.

(** Two slots that do not cross, and a slot that no word fits. *)
Module Puzzles.
Definition apart :=
  grid_crossword [mkVar 0 0 ACROSS 2; mkVar 2 0 ACROSS 3] ["AB"; "CAT"]%string.
Definition unfillable :=
  grid_crossword [mkVar 0 0 ACROSS 3] ["AB"; "XY"]%string.

(** The grid of the solution of the ring puzzle. *)
Definition ring_grid : list (list (option ascii)) :=
  [[None; Some "B"; None; None; None];
   [None; Some "A"; Some "B"; Some "A"; None];
   [None; Some "B"; None; Some "B"; None];
   [Some "B"; Some "A"; Some "B"; Some "A"; None];
   [None; Some "B"; None; Some "B"; None];
   [None; None; None; Some "B"; None];
   [None; None; None; Some "B"; None]]%char.
End Puzzles.

(** * Lemmas *)

(** ** Outcomes and loops *)

Lemma bind_Done {A B} (m : res A) (f : A → res B) b :
  m ≫= f = Done b ↔ ∃ a, m = Done a ∧ f a = Done b.
Proof.
  destruct m; simpl; split; try (intros [? [? ?]]); try done; eauto.
  by simplify_eq.
Qed.

Lemma of_option_Done {A} (o : option A) a : of_option o = Done a ↔ o = Some a.
Proof. destruct o; simpl; split; intros; by simplify_eq. Qed.

Lemma fold_res_ind {A S} (P : S → Prop) (f : S → A → res S) l :
  ∀ s r, P s →
    (∀ s x s', x ∈ l → P s → f s x = Done s' → P s') →
    fold_res f s l = Done r → P r.
Proof.
  induction l as [|x l IH]; intros s r Hs Hstep; simpl.
  - intros; by simplify_eq.
  - rewrite bind_Done. intros (s' & Hf & Hr).
    eapply IH; [| |exact Hr].
    + eapply Hstep; [|done..]. set_solver.
    + intros. eapply Hstep; [|done..]. set_solver.
Qed.

Lemma all_res_total {A} (f : A → res bool) l :
  (∀ x, x ∈ l → ∃ b, f x = Done b) →
  ∃ b, all_res f l = Done b ∧ (b = true ↔ ∀ x, x ∈ l → f x = Done true).
Proof.
  induction l as [|x l IH]; intros Hf; simpl.
  - exists true. split; [done|]. split; [|done]. by intros _ ? ?%elem_of_nil.
  - destruct (Hf x) as [b Hb]; [set_solver|]. rewrite Hb. simpl.
    destruct b.
    + destruct IH as (b & -> & Hiff); [intros; apply Hf; set_solver|].
      exists b. split; [done|]. rewrite Hiff. split.
      * intros Hl y [->|?]%elem_of_cons; auto.
      * intros Hl y ?. apply Hl. set_solver.
    + exists false. split; [done|]. split; [done|].
      intros Hl. specialize (Hl x). rewrite Hb in Hl.
      assert (Done false = Done true) by (apply Hl; set_solver). done.
Qed.

Lemma forallb_elem {A} (f : A → bool) l :
  forallb f l = true ↔ ∀ x, x ∈ l → f x = true.
Proof.
  rewrite forallb_forall. by setoid_rewrite list_elem_of_In.
Qed.

Lemma get_lt w : ∀ i, i < String.length w → is_Some (String.get i w).
Proof.
  induction w as [|c w IH]; intros i Hi; simpl in *; [lia|].
  destruct i; [eauto|]. apply IH. lia.
Qed.

Lemma letter_Done w i : i < String.length w → ∃ c, letter w i = Done c ∧ String.get i w = Some c.
Proof. intros [c Hc]%get_lt. exists c. unfold letter. by rewrite Hc. Qed.

(** [for x in X.copy(): if P(x): X.remove(x)] keeps the elements of [X]
    that do not satisfy [P]. *)
Lemma foldl_remove_elem `{Countable A} (P : A → Prop) `{∀ x, Decision (P x)}
    (l : list A) (X : gset A) x :
  x ∈ foldl (λ cur y, if decide (P y) then cur ∖ {[y]} else cur) X l
  ↔ x ∈ X ∧ ¬ (x ∈ l ∧ P x).
Proof.
  revert X. induction l as [|y l IH]; intros X; simpl.
  - split; [intros ?; split; [done|]; by intros [?%elem_of_nil _]|tauto].
  - rewrite IH, elem_of_cons. destruct (decide (P y)) as [Hy|Hy].
    + rewrite elem_of_difference, elem_of_singleton. split.
      * intros [[? ?] Hn]. split; [done|]. intros [[->|?] ?]; tauto.
      * intros [? Hn]. split; [split; [done|]|]; [intros ->|intros [? ?]];
          apply Hn; tauto.
    + split; intros [? Hn]; (split; [done|]).
      * intros [[->|?] ?]; tauto.
      * intros [? ?]. apply Hn. tauto.
Qed.

Lemma size_filter_elements `{Countable A} (P : A → Prop) `{∀ x, Decision (P x)}
    (X : gset A) :
  size (filter P X) = length (filter P (elements X)).
Proof.
  unfold size, set_size. simpl. apply Permutation_length, NoDup_Permutation.
  - apply NoDup_elements.
  - apply NoDup_filter, NoDup_elements.
  - intros x. rewrite elem_of_elements, elem_of_filter, list_elem_of_filter.
    by rewrite elem_of_elements.
Qed.

(** ** The puzzle and node consistency *)

Lemma elem_of_neighbors cw x y :
  y ∈ neighbors cw x ↔ y ∈ variables cw ∧ y ≠ x ∧ is_Some (overlaps cw x y).
Proof. unfold neighbors. rewrite elem_of_filter. tauto. Qed.

Lemma neighbors_size cw x : size (neighbors cw x) ≤ size (variables cw).
Proof. apply subseteq_size. intros y. rewrite elem_of_neighbors. tauto. Qed.

Lemma init_domains_dom cw : dom (init_domains cw) = variables cw.
Proof. unfold init_domains. apply dom_gset_to_gmap. Qed.

Lemma node_filter_elem v X w :
  w ∈ node_filter v X ↔ w ∈ X ∧ String.length w = var_length v.
Proof.
  unfold node_filter. rewrite foldl_remove_elem, elem_of_elements.
  destruct (decide (String.length w = var_length v)); tauto.
Qed.

Lemma enforce_node_consistency_lookup d v :
  enforce_node_consistency d !! v = node_filter v <$> d !! v.
Proof.
  unfold enforce_node_consistency.
  assert (∀ l (cur : gmap Var (gset string)), NoDup l →
    foldl (λ cur v, <[v := node_filter v (cur !!! v)]> cur) cur l !! v
    = if decide (v ∈ l) then Some (node_filter v (cur !!! v)) else cur !! v) as H.
  { induction l as [|u l IH]; intros cur Hnd; simpl.
    - done.
    - inversion Hnd as [|? ? Hu Hl]; subst. rewrite IH by done.
      destruct (decide (v ∈ l)) as [Hv|Hv].
      + assert (u ≠ v) by (intros ->; done).
        rewrite decide_True by set_solver.
        by rewrite lookup_total_insert_ne.
      + destruct (decide (u = v)) as [->|Hne].
        * rewrite decide_True by set_solver. by rewrite lookup_insert_eq.
        * rewrite decide_False by set_solver. by rewrite lookup_insert_ne. }
  rewrite H by apply NoDup_elements.
  destruct (d !! v) as [X|] eqn:E; simpl.
  - rewrite decide_True. 2:{ apply elem_of_elements, elem_of_dom. eauto. }
    by rewrite lookup_total_alt, E.
  - rewrite decide_False; [done|]. rewrite elem_of_elements, elem_of_dom, E.
    by intros [? ?].
Qed.

Lemma enforce_node_consistency_dom d : dom (enforce_node_consistency d) = dom d.
Proof.
  apply set_eq. intros v. rewrite !elem_of_dom, enforce_node_consistency_lookup.
  by rewrite fmap_is_Some.
Qed.

Lemma enforce_node_consistent d : node_consistent (enforce_node_consistency d).
Proof.
  intros v X w. rewrite enforce_node_consistency_lookup.
  destruct (d !! v) as [X0|]; simpl; [|done].
  intros ? Hw; simplify_eq. by apply node_filter_elem in Hw as [_ ?].
Qed.

(** ** [revise] *)

Lemma letters_at_Done iy (Y : gset string) L :
  letters_at iy Y = Done L →
  ∀ c, c ∈ L ↔ ∃ w, w ∈ Y ∧ String.get iy w = Some c.
Proof.
  unfold letters_at. intros H.
  assert (∀ c, c ∈ L ↔ ∃ w, w ∈ elements Y ∧ String.get iy w = Some c) as HL.
  { revert H. generalize (elements Y). intros l.
    assert (∀ (acc : gset ascii),
      fold_res (λ acc w, c ← letter w iy; Done ({[c]} ∪ acc)) acc l = Done L →
      ∀ c, c ∈ L ↔ c ∈ acc ∨ ∃ w, w ∈ l ∧ String.get iy w = Some c) as G.
    { induction l as [|w l IH]; intros acc; simpl.
      - intros ? c; simplify_eq. set_solver.
      - rewrite bind_Done. intros (acc' & Hacc & Hr) c.
        apply bind_Done in Hacc as (c' & Hc' & ?); simplify_eq.
        apply of_option_Done in Hc'.
        rewrite (IH _ Hr). rewrite elem_of_union, elem_of_singleton.
        split.
        + intros [[->|?]|(w' & ? & ?)]; [right; exists w; set_solver|by left|].
          right; exists w'; set_solver.
        + intros [?|(w' & [->|?]%elem_of_cons & ?)]; [tauto| |by eauto].
          left; left. congruence. }
    intros H c. rewrite (G _ H). set_solver. }
  intros c. rewrite HL. by setoid_rewrite elem_of_elements.
Qed.

Lemma letters_at_total iy (Y : gset string) :
  (∀ w, w ∈ Y → iy < String.length w) → ∃ L, letters_at iy Y = Done L.
Proof.
  unfold letters_at. intros H.
  assert (∀ w, w ∈ elements Y → iy < String.length w) as Hl
    by (intros ??; apply H; by apply elem_of_elements).
  clear H. revert Hl. generalize (elements Y) (∅ : gset ascii).
  induction l as [|w l IH]; intros acc Hl; simpl; [eauto|].
  destruct (letter_Done w iy) as (c & -> & _); [apply Hl; set_solver|].
  simpl. apply IH. intros; apply Hl; set_solver.
Qed.

Lemma revise_step_Done x ix C (cur : gmap Var (gset string)) flag w st' :
  revise_step x ix C (cur, flag) w = Done st' →
  (supported_by C ix w ∧ st' = (cur, flag)) ∨
  (¬ supported_by C ix w ∧ ∃ X, cur !! x = Some X ∧ st' = (<[x := X ∖ {[w]}]> cur, true)).
Proof.
  unfold revise_step. rewrite bind_Done. intros (c & Hc%of_option_Done & H).
  simpl in H. destruct (decide (c ∉ C)) as [Hn|Hn].
  - apply bind_Done in H as (X & HX%of_option_Done & ?); simplify_eq.
    right. split; [|eauto]. intros (c' & ? & ?). by simplify_eq.
  - left. simplify_eq. split; [|done]. exists c. split; [done|].
    by destruct (decide (c ∈ C)).
Qed.

Lemma revise_fold_Done x ix C l :
  ∀ (cur : gmap Var (gset string)) flag X0 d' flag',
    cur !! x = Some X0 →
    fold_res (revise_step x ix C) (cur, flag) l = Done (d', flag') →
    (∃ X', d' !! x = Some X' ∧
        ∀ w, w ∈ X' ↔ w ∈ X0 ∧ ¬ (w ∈ l ∧ ¬ supported_by C ix w)) ∧
    (∀ v, v ≠ x → d' !! v = cur !! v) ∧
    (flag' = true ↔ flag = true ∨ ∃ w, w ∈ l ∧ ¬ supported_by C ix w) ∧
    (flag' = false → d' = cur).
Proof.
  induction l as [|w l IH]; intros cur flag X0 d' flag' HX; simpl.
  - intros ?; simplify_eq. split_and!; [|done| |done].
    + exists X0. split; [done|]. set_solver.
    + set_solver.
  - rewrite bind_Done. intros ([cur1 flag1] & Hstep & Hr).
    apply revise_step_Done in Hstep as [[Hs ?]|[Hs (X & HX' & ?)]]; simplify_eq.
    + destruct (IH _ _ _ _ _ HX Hr) as ((X' & HX' & HX'') & Hfr & Hfl & Hid).
      split_and!; [|done| |done].
      * exists X'. split; [done|]. intros w'. rewrite HX'', elem_of_cons.
        split; intros [? Hn]; (split; [done|]).
        -- intros [[->|?] ?]; tauto.
        -- intros [? ?]. apply Hn. tauto.
      * rewrite Hfl. split.
        -- intros [?|(w' & ? & ?)]; [by left|]. right. exists w'. set_solver.
        -- intros [?|(w' & [->|?]%elem_of_cons & ?)]; [by left|done|]. right; eauto.
    + assert (<[x:=X0 ∖ {[w]}]> cur !! x = Some (X0 ∖ {[w]})) as HX1 by apply lookup_insert_eq.
      destruct (IH _ _ _ _ _ HX1 Hr) as ((X' & HX' & HX'') & Hfr & Hfl & Hid).
      assert (flag' = true) as -> by (apply Hfl; by left).
      split_and!; [| | |done].
      * exists X'. split; [done|]. intros w'. rewrite HX'', elem_of_cons.
        rewrite elem_of_difference, elem_of_singleton.
        split.
        -- intros [[? ?] Hn]. split; [done|]. intros [[->|?] ?]; tauto.
        -- intros [? Hn]. split; [split; [done|]|]; [intros ->|intros [? ?]]; apply Hn; tauto.
      * intros v Hv. rewrite Hfr by done. by rewrite lookup_insert_ne.
      * split; [|done]. intros _. right. exists w. set_solver.
Qed.

Lemma revise_fold_total x ix C l :
  ∀ (cur : gmap Var (gset string)) flag,
    is_Some (cur !! x) →
    (∀ w, w ∈ l → ix < String.length w) →
    ∃ st, fold_res (revise_step x ix C) (cur, flag) l = Done st.
Proof.
  induction l as [|w l IH]; intros cur flag [X HX] Hl; simpl; [eauto|].
  unfold revise_step at 2. 
  destruct (letter_Done w ix) as (c & -> & _); [apply Hl; set_solver|].
  simpl. destruct (decide (c ∉ C)).
  - rewrite HX. simpl. apply IH; [|intros; apply Hl; set_solver].
    rewrite lookup_insert_eq. eauto.
  - simpl. apply IH; [eauto|intros; apply Hl; set_solver].
Qed.

(** What a returning [revise] did. *)
Lemma revise_Done cw d x y d' b :
  revise cw d x y = Done (d', b) →
  ∃ ix iy X Y X',
    overlaps cw x y = Some (ix, iy) ∧ d !! x = Some X ∧ d !! y = Some Y ∧
    d' !! x = Some X' ∧
    (∀ w, w ∈ X' ↔ w ∈ X ∧ has_support ix iy Y w) ∧
    (∀ v, v ≠ x → d' !! v = d !! v) ∧
    (b = true ↔ ∃ w, w ∈ X ∧ ¬ has_support ix iy Y w) ∧
    (b = false → d' = d).
Proof.
  unfold revise. rewrite bind_Done.
  intros ([ix iy] & Hov%of_option_Done & H). simpl in H.
  apply bind_Done in H as (Y & HY%of_option_Done & H).
  apply bind_Done in H as (C & HC & H).
  apply bind_Done in H as (X & HX%of_option_Done & H).
  pose proof (letters_at_Done _ _ _ HC) as HC'.
  destruct (revise_fold_Done _ _ _ _ _ _ _ _ _ HX H)
    as ((X' & HX' & HX'') & Hfr & Hfl & Hid).
  assert (∀ w, supported_by C ix w ↔ has_support ix iy Y w) as Hsup.
  { intros w. unfold supported_by, has_support. split.
    - intros (c & ? & (w' & ? & ?)%HC'). eauto 10.
    - intros (w' & c & ? & ? & ?). exists c. split; [done|]. apply HC'. eauto. }
  exists ix, iy, X, Y, X'. split_and!; try done.
  - intros w. rewrite HX'', elem_of_elements, <-Hsup.
    destruct (decide (supported_by C ix w)); tauto.
  - rewrite Hfl. setoid_rewrite elem_of_elements. setoid_rewrite Hsup.
    split; [intros [?|?]|]; eauto; done.
Qed.

Lemma revise_total cw d x y ix iy X Y :
  overlaps cw x y = Some (ix, iy) → d !! x = Some X → d !! y = Some Y →
  (∀ w, w ∈ X → ix < String.length w) →
  (∀ w, w ∈ Y → iy < String.length w) →
  ∃ d' b, revise cw d x y = Done (d', b).
Proof.
  intros Hov HX HY HlX HlY. unfold revise. rewrite Hov, HY. simpl.
  destruct (letters_at_total iy Y HlY) as [C ->]. simpl. rewrite HX. simpl.
  destruct (revise_fold_total x ix C (elements X) d false) as [[d' b] ->]; eauto.
  intros w ?%elem_of_elements. auto.
Qed.

Lemma total_size_insert (d : gmap Var (gset string)) x X X' :
  d !! x = Some X →
  total_size (<[x := X']> d) + size X = total_size d + size X'.
Proof.
  intros HX. unfold total_size.
  rewrite <-(insert_delete_eq d x X').
  rewrite (map_to_list_insert (delete x d)) by apply lookup_delete_eq.
  rewrite <-(map_to_list_delete d x X HX). simpl. lia.
Qed.

Lemma revise_shrinks cw d x y d' :
  revise cw d x y = Done (d', true) → total_size d' < total_size d.
Proof.
  intros (ix & iy & X & Y & X' & _ & HX & _ & HX' & Hel & Hfr & Hb & _)%revise_Done.
  assert (d' = <[x := X']> d) as ->.
  { apply map_eq. intros v. destruct (decide (v = x)) as [->|Hne].
    - by rewrite lookup_insert_eq.
    - rewrite lookup_insert_ne by done. auto. }
  pose proof (total_size_insert d x X X' HX).
  assert (size X' < size X); [|lia].
  apply subset_size. destruct Hb as [Hb _]. destruct (Hb eq_refl) as (w & Hw & Hns).
  split.
  - intros w'. rewrite Hel. tauto.
  - intros Hsub. apply Hsub, Hel in Hw. tauto.
Qed.

Lemma revise_dom cw d x y d' b :
  revise cw d x y = Done (d', b) → dom d' = dom d.
Proof.
  intros (ix & iy & X & Y & X' & _ & HX & _ & HX' & _ & Hfr & _)%revise_Done.
  apply set_eq. intros v. rewrite !elem_of_dom.
  destruct (decide (v = x)) as [->|Hne]; [rewrite HX, HX'; split; eauto|].
  by rewrite Hfr.
Qed.

Lemma revise_node_consistent cw d x y d' b :
  revise cw d x y = Done (d', b) → node_consistent d → node_consistent d'.
Proof.
  intros (ix & iy & X & Y & X' & _ & HX & _ & HX' & Hel & Hfr & _)%revise_Done Hnc.
  intros v Z w HZ Hw. destruct (decide (v = x)) as [->|Hne].
  - simplify_eq. apply Hel in Hw as [Hw _]. eauto.
  - rewrite Hfr in HZ by done. eauto.
Qed.

Lemma revise_total_wf cw d x y :
  wf_overlaps cw → node_consistent d → variables cw ⊆ dom d →
  valid_arc cw (x, y) →
  ∃ d' b, revise cw d x y = Done (d', b).
Proof.
  intros Hwf Hnc Hdom [Hx Hy]. simpl in *.
  apply elem_of_neighbors in Hy as (Hy & _ & [[ix iy] Hov]).
  destruct (Hwf _ _ _ _ Hx Hy Hov).
  apply Hdom, elem_of_dom in Hx as [X HX].
  apply Hdom, elem_of_dom in Hy as [Y HY].
  eapply revise_total; eauto.
  - intros w Hw. rewrite (Hnc _ _ _ HX Hw). done.
  - intros w Hw. rewrite (Hnc _ _ _ HY Hw). done.
Qed.

(** ** [ac3] *)

Lemma push_neighbors_eq cw x y stack :
  push_neighbors cw x y stack
  = reverse ((λ z, (x, z)) <$> filter (λ z, z ≠ y) (elements (neighbors cw x)))
    ++ stack.
Proof.
  unfold push_neighbors. generalize (elements (neighbors cw x)). intros l.
  revert stack. induction l as [|z l IH]; intros stack; simpl; [done|].
  rewrite IH. rewrite filter_cons. destruct (decide (z ≠ y)); [|done].
  rewrite fmap_cons, reverse_cons, <-app_assoc. done.
Qed.

Lemma push_neighbors_length cw x y stack :
  length (push_neighbors cw x y stack) ≤ size (variables cw) + length stack.
Proof.
  rewrite push_neighbors_eq, length_app, length_reverse, length_fmap.
  pose proof (length_filter (λ z, z ≠ y) (elements (neighbors cw x))).
  pose proof (neighbors_size cw x). unfold size, set_size in *. simpl in *. lia.
Qed.

Lemma push_neighbors_valid cw x y stack :
  x ∈ variables cw → Forall (valid_arc cw) stack →
  Forall (valid_arc cw) (push_neighbors cw x y stack).
Proof.
  intros Hx Hst. rewrite push_neighbors_eq. apply Forall_app. split; [|done].
  apply Forall_reverse, Forall_fmap, Forall_forall.
  intros z [_ Hz%elem_of_elements]%list_elem_of_filter. by split.
Qed.

Lemma all_arcs_valid cw : Forall (valid_arc cw) (all_arcs cw).
Proof.
  apply Forall_forall. intros [x y]. unfold all_arcs.
  rewrite list_elem_of_bind. intros (x' & Hin & Hx'%elem_of_elements).
  apply list_elem_of_bind in Hin as (y' & Hin & Hy'%elem_of_elements).
  apply list_elem_of_singleton in Hin. by simplify_eq.
Qed.

(** Within its budget the loop of [ac3] returns. *)
Lemma ac3_loop_total cw :
  wf_overlaps cw →
  ∀ fuel d stack,
    length stack + total_size d * S (size (variables cw)) ≤ fuel →
    node_consistent d → variables cw ⊆ dom d →
    Forall (valid_arc cw) stack →
    ∃ d' b, ac3_loop cw fuel d stack = Done (d', b).
Proof.
  intros Hwf. induction fuel as [|fuel IH]; intros d stack Hfuel Hnc Hdom Hst.
  - destruct stack; simpl in *; [eauto|lia].
  - destruct stack as [|[x y] rest]; simpl in *; [eauto|].
    apply Forall_cons in Hst as [Harc Hst].
    destruct (revise_total_wf cw d x y Hwf Hnc Hdom Harc) as (d' & b & Hrev).
    unfold ac3_step. simpl. rewrite Hrev. simpl.
    pose proof (revise_dom _ _ _ _ _ _ Hrev) as Hd.
    pose proof (revise_node_consistent _ _ _ _ _ _ Hrev Hnc) as Hnc'.
    destruct Harc as [Hx _]. simpl in Hx.
    destruct b.
    + assert (is_Some (d' !! x)) as [X' ->].
      { apply elem_of_dom. rewrite Hd. by apply Hdom. }
      simpl. destruct (decide (size X' = 0)); simpl; [eauto|].
      apply revise_shrinks in Hrev.
      apply IH; [| done | by rewrite Hd | by apply push_neighbors_valid].
      pose proof (push_neighbors_length cw x y rest). nia.
    + apply revise_Done in Hrev as (? & ? & ? & ? & ? & _ & _ & _ & _ & _ & _ & _ & Hid).
      rewrite (Hid eq_refl) in *. apply IH; [lia|done..].
Qed.

Lemma ac3_total cw d :
  wf_overlaps cw → node_consistent d → variables cw ⊆ dom d →
  ∃ d' b, ac3 cw d None = Done (d', b).
Proof.
  intros Hwf Hnc Hdom. unfold ac3. simpl. apply ac3_loop_total; try done.
  - unfold ac3_fuel. rewrite length_reverse. done.
  - apply Forall_reverse, all_arcs_valid.
Qed.

Lemma ac3_loop_dom cw :
  ∀ fuel d stack d' b, ac3_loop cw fuel d stack = Done (d', b) → dom d' = dom d.
Proof.
  induction fuel as [|fuel IH]; intros d stack d' b; destruct stack as [|[x y] rest];
    simpl; try (intros; by simplify_eq).
  rewrite bind_Done. intros (st & Hstep & Hr).
  unfold ac3_step in Hstep. apply bind_Done in Hstep as ([d1 ch] & Hrev & Hstep).
  simpl in Hstep. pose proof (revise_dom _ _ _ _ _ _ Hrev) as Hd.
  destruct ch.
  - apply bind_Done in Hstep as (X' & _ & Hstep).
    destruct (decide (size X' = 0)); simplify_eq; [done|].
    apply IH in Hr. congruence.
  - simplify_eq. apply IH in Hr. congruence.
Qed.

(** [ac3] returns [False] only when it has emptied the domain of a slot. *)
Lemma ac3_loop_false cw :
  ∀ fuel d stack d',
    Forall (λ arc, arc.1 ∈ variables cw) stack →
    ac3_loop cw fuel d stack = Done (d', false) →
    ∃ x, x ∈ variables cw ∧ d' !! x = Some ∅.
Proof.
  induction fuel as [|fuel IH]; intros d stack d' Hst; destruct stack as [|[x y] rest];
    simpl; try (intros; by simplify_eq).
  apply Forall_cons in Hst as [Hx Hst]. simpl in Hx.
  rewrite bind_Done. intros (st & Hstep & Hr).
  unfold ac3_step in Hstep. apply bind_Done in Hstep as ([d1 ch] & Hrev & Hstep).
  simpl in Hstep. destruct ch.
  - apply bind_Done in Hstep as (X' & HX'%of_option_Done & Hstep).
    destruct (decide (size X' = 0)) as [Hz|Hz]; simplify_eq.
    + exists x. split; [done|]. apply size_empty_iff in Hz.
      apply leibniz_equiv in Hz. by subst.
    + eapply IH; [|done]. rewrite push_neighbors_eq. apply Forall_app. split; [|done].
      apply Forall_reverse, Forall_fmap, Forall_forall. by intros.
  - simplify_eq. eapply IH; done.
Qed.

Lemma ac3_false_empty cw d d' :
  ac3 cw d None = Done (d', false) →
  dom d' = dom d ∧ ∃ x, x ∈ variables cw ∧ d' !! x = Some ∅.
Proof.
  unfold ac3. simpl. intros H. split; [by eapply ac3_loop_dom|].
  eapply ac3_loop_false; [|exact H].
  apply Forall_reverse. eapply Forall_impl; [apply all_arcs_valid|].
  by intros arc [? _].
Qed.

(** ** [assignment_complete] and [consistent] *)

Lemma assignment_complete_true cw (a : gmap Var string) :
  assignment_complete cw a = true ↔
  ∀ v, v ∈ variables cw → ∃ w, a !! v = Some w ∧ w ≠ ""%string.
Proof.
  unfold assignment_complete. rewrite forallb_elem.
  setoid_rewrite elem_of_elements. split; intros Hall v Hv.
  - specialize (Hall v Hv). destruct (a !! v) as [w|]; [|done].
    destruct (decide (w = ""%string)); [done|]. eauto.
  - destruct (Hall v Hv) as (w & -> & Hw).
    rewrite decide_False by done. apply bool_decide_eq_true_2.
    destruct w; [done|simpl; lia].
Qed.

Lemma size_list_to_set_le `{Countable A} (l : list A) :
  size (list_to_set (C:=gset A) l) ≤ length l.
Proof.
  induction l as [|x l IH];
    [rewrite list_to_set_nil, size_empty; simpl; lia|rewrite list_to_set_cons; cbn [length]].
  pose proof (size_union_alt (C:=gset A) {[x]} (list_to_set l)) as Hs.
  rewrite Hs, size_singleton.
  assert (list_to_set (C:=gset A) l ∖ {[x]} ⊆ list_to_set l) as Hsub by set_solver.
  apply subseteq_size in Hsub. lia.
Qed.

Lemma size_list_to_set_NoDup `{Countable A} (l : list A) :
  size (list_to_set (C:=gset A) l) = length l ↔ NoDup l.
Proof.
  split; [|apply size_list_to_set].
  induction l as [|x l IH]; [constructor|rewrite list_to_set_cons; cbn [length]].
  intros Hs. pose proof (size_list_to_set_le l).
  destruct (decide (x ∈ l)) as [Hin|Hin].
  - replace ({[x]} ∪ list_to_set l : gset A) with (list_to_set l : gset A) in Hs
      by set_solver. lia.
  - rewrite size_union, size_singleton in Hs by set_solver.
    constructor; [done|]. apply IH. lia.
Qed.

Lemma NoDup_fmap_inj_on {A B} (f : A → B) (l : list A) x y :
  NoDup (f <$> l) → x ∈ l → y ∈ l → f x = f y → x = y.
Proof.
  induction l as [|z l IH]; simpl; [by intros _ ?%elem_of_nil|].
  intros [Hz Hl]%NoDup_cons [->|Hx]%elem_of_cons [->|Hy]%elem_of_cons Hf; auto.
  - exfalso. apply Hz. rewrite Hf. by apply list_elem_of_fmap_2.
  - exfalso. apply Hz. rewrite <-Hf. by apply list_elem_of_fmap_2.
Qed.

Lemma NoDup_values_distinct (a : gmap Var string) :
  NoDup (map_to_list a).*2 ↔ distinct_values a.
Proof.
  split.
  - intros Hnd x y w Hx%elem_of_map_to_list Hy%elem_of_map_to_list.
    pose proof (NoDup_fmap_inj_on snd _ _ _ Hnd Hx Hy eq_refl). by simplify_eq.
  - intros Hd. apply NoDup_fmap_2_strong; [|apply NoDup_map_to_list].
    intros [x w] [y w'] Hx%elem_of_map_to_list Hy%elem_of_map_to_list ?.
    simpl in *; subst. f_equal. eauto.
Qed.

(** [consistent] returns, and what its boolean says. *)
Lemma consistent_total_iff cw (a : gmap Var string) :
  wf_overlaps cw → dom a ⊆ variables cw →
  ∃ b, consistent cw a = Done b ∧
       (b = true ↔ distinct_values a ∧ lengths_match a ∧ overlaps_agree cw a).
Proof.
  intros Hwf Hdom. unfold consistent.
  destruct (decide (size (list_to_set (C:=gset string) (map_to_list a).*2)
                    ≠ length (map_to_list a).*2)) as [Hs|Hs].
  { exists false. split; [done|]. split; [done|]. intros (Hd & _).
    apply NoDup_values_distinct, size_list_to_set_NoDup in Hd. done. }
  assert (distinct_values a) as Hdist.
  { apply NoDup_values_distinct, size_list_to_set_NoDup.
    destruct (decide (size (list_to_set (C:=gset string) (map_to_list a).*2)
                    = length (map_to_list a).*2)); [done|]. by destruct Hs. }
  destruct (forallb _ (elements (variables cw))) eqn:Hlen; simpl.
  2:{ exists false. split; [done|]. split; [done|]. intros (_ & Hl & _).
      apply not_true_iff_false in Hlen. exfalso. apply Hlen, forallb_elem.
      intros v _. destruct (a !! v) as [w|] eqn:Hw; [|done].
      apply bool_decide_eq_true_2. eauto. }
  assert (lengths_match a) as Hlm.
  { intros x w Hx. rewrite forallb_elem in Hlen.
    specialize (Hlen x). rewrite Hx in Hlen.
    eapply bool_decide_eq_true_1, Hlen.
    apply elem_of_elements, Hdom, elem_of_dom. eauto. }
  set (inner := λ item : Var * string, _).
  assert (∀ item, item ∈ map_to_list a →
     ∃ b, inner item = Done b ∧
       (b = true ↔ ∀ y wy ix iy, a !! y = Some wy → y ∈ neighbors cw item.1 →
           overlaps cw item.1 y = Some (ix, iy) →
           ∃ c, String.get ix item.2 = Some c ∧ String.get iy wy = Some c))
    as Hinner.
  { intros [x wx] Hx%elem_of_map_to_list. unfold inner. simpl.
    assert (x ∈ variables cw) as Hxv by (apply Hdom, elem_of_dom; eauto).
    match goal with |- ∃ b, all_res ?f ?l = _ ∧ _ => destruct (all_res_total f l) as (b & Hb & Hiff) end.
    { intros y (Hyv & _ & [[ix iy] Hov])%elem_of_elements%elem_of_neighbors.
      rewrite Hov. simpl. destruct (a !! y) as [wy|] eqn:Hy; [|eauto].
      destruct (Hwf _ _ _ _ Hxv Hyv Hov) as [Hix Hiy].
      destruct (letter_Done wx ix) as (c1 & -> & _); [by rewrite (Hlm _ _ Hx)|].
      destruct (letter_Done wy iy) as (c2 & -> & _); [by rewrite (Hlm _ _ Hy)|].
      simpl. eauto. }
    exists b. split; [done|]. rewrite Hiff. split.
    - intros Hall y wy ix iy Hy Hn Hov.
      specialize (Hall y). rewrite Hov, Hy in Hall. simpl in Hall.
      pose proof Hn as (Hyv & _)%elem_of_neighbors.
      destruct (Hwf _ _ _ _ Hxv Hyv Hov) as [Hix Hiy].
      destruct (letter_Done wx ix) as (c1 & Hc1 & Hg1); [by rewrite (Hlm _ _ Hx)|].
      destruct (letter_Done wy iy) as (c2 & Hc2 & Hg2); [by rewrite (Hlm _ _ Hy)|].
      rewrite Hc1, Hc2 in Hall. simpl in Hall.
      assert (Done (bool_decide (c1 = c2)) = Done true) as Heq
        by (apply Hall; by apply elem_of_elements).
      injection Heq as Heq. apply bool_decide_eq_true_1 in Heq. subst. eauto.
    - intros Hall y Hn%elem_of_elements.
      pose proof Hn as (_ & _ & [[ix iy] Hov])%elem_of_neighbors.
      rewrite Hov. simpl. destruct (a !! y) as [wy|] eqn:Hy; [|done].
      destruct (Hall y wy ix iy Hy Hn Hov) as (c & Hg1 & Hg2).
      unfold letter. rewrite Hg1, Hg2. simpl. by rewrite bool_decide_eq_true_2. }
  destruct (all_res_total inner (map_to_list a)) as (b & Hb & Hiff).
  { intros item Hitem. destruct (Hinner item Hitem) as (b & ? & _). eauto. }
  exists b. split; [done|]. rewrite Hiff. split.
  - intros Hall. split_and!; [done..|].
    intros x y wx wy ix iy Hx Hy Hn Hov.
    destruct (Hinner (x, wx)) as (b' & Hb' & Hiff'); [by apply elem_of_map_to_list|].
    rewrite Hall in Hb' by (by apply elem_of_map_to_list). simplify_eq.
    destruct Hiff' as [Hiff' _]. apply (Hiff' eq_refl y wy ix iy); done.
  - intros (_ & _ & Hag) [x wx] Hitem.
    destruct (Hinner (x, wx) Hitem) as (b' & Hb' & Hiff').
    rewrite Hb'. f_equal. apply Hiff'. intros y wy ix iy Hy Hn Hov. simpl in *.
    apply elem_of_map_to_list in Hitem. eauto.
Qed.

Lemma consistent_empty cw : consistent cw ∅ = Done true.
Proof.
  unfold consistent. rewrite map_to_list_empty, fmap_nil, list_to_set_nil, size_empty.
  cbn [length]. rewrite decide_False by (intros Hn; by apply Hn).
  simpl. replace (forallb _ _) with true; [done|].
  symmetry. apply forallb_elem. intros v _. by rewrite lookup_empty.
Qed.

(** ** The stable sort *)

Section sorting.
Context {A : Type} (key : A → nat).

Lemma insert_by_Permutation x l : insert_by key x l ≡ₚ x :: l.
Proof.
  induction l as [|y l IH]; simpl; [done|].
  destruct (decide (key x ≤ key y)); [done|].
  rewrite IH. apply Permutation_swap.
Qed.

Lemma sorted_Permutation l : sorted key l ≡ₚ l.
Proof.
  induction l as [|x l IH]; simpl; [done|].
  unfold sorted in *. simpl. by rewrite insert_by_Permutation, IH.
Qed.

Lemma insert_by_StronglySorted x l :
  StronglySorted (λ a b, key a ≤ key b) l →
  StronglySorted (λ a b, key a ≤ key b) (insert_by key x l).
Proof.
  induction 1 as [|y l Hl IH Hy]; simpl; [repeat constructor|].
  destruct (decide (key x ≤ key y)) as [Hle|Hgt].
  - constructor; [by constructor|]. constructor; [done|].
    eapply Forall_impl; [exact Hy|]. simpl. intros; lia.
  - constructor; [done|]. rewrite insert_by_Permutation.
    constructor; [lia|done].
Qed.

Lemma sorted_StronglySorted l :
  StronglySorted (λ a b, key a ≤ key b) (sorted key l).
Proof.
  induction l as [|x l IH]; [constructor|].
  by apply insert_by_StronglySorted.
Qed.

Lemma insert_by_filter c x l :
  filter (λ a, key a = c) (insert_by key x l)
  = filter (λ a, key a = c) (x :: l).
Proof.
  induction l as [|y l IH]; simpl; [done|].
  destruct (decide (key x ≤ key y)) as [Hle|Hgt]; [done|].
  rewrite (filter_cons _ y), IH, !filter_cons.
  destruct (decide (key y = c)), (decide (key x = c)); try done. lia.
Qed.

(** the sort is stable: the elements of one key keep their order *)
Lemma sorted_filter c l :
  filter (λ a, key a = c) (sorted key l) = filter (λ a, key a = c) l.
Proof.
  induction l as [|x l IH]; [done|].
  unfold sorted in *. simpl. rewrite insert_by_filter, !filter_cons, IH. done.
Qed.

Lemma insert_by_reverse_Permutation x l : insert_by_reverse key x l ≡ₚ x :: l.
Proof.
  induction l as [|y l IH]; simpl; [done|].
  destruct (decide (key y ≤ key x)); [done|].
  rewrite IH. apply Permutation_swap.
Qed.

Lemma sorted_reverse_Permutation l : sorted_reverse key l ≡ₚ l.
Proof.
  induction l as [|x l IH]; simpl; [done|].
  unfold sorted_reverse in *. simpl.
  by rewrite insert_by_reverse_Permutation, IH.
Qed.

Lemma insert_by_reverse_StronglySorted x l :
  StronglySorted (λ a b, key b ≤ key a) l →
  StronglySorted (λ a b, key b ≤ key a) (insert_by_reverse key x l).
Proof.
  induction 1 as [|y l Hl IH Hy]; simpl; [repeat constructor|].
  destruct (decide (key y ≤ key x)) as [Hle|Hgt].
  - constructor; [by constructor|]. constructor; [done|].
    eapply Forall_impl; [exact Hy|]. simpl. intros; lia.
  - constructor; [done|]. rewrite insert_by_reverse_Permutation.
    constructor; [lia|done].
Qed.

Lemma sorted_reverse_StronglySorted l :
  StronglySorted (λ a b, key b ≤ key a) (sorted_reverse key l).
Proof.
  induction l as [|x l IH]; [constructor|].
  by apply insert_by_reverse_StronglySorted.
Qed.

End sorting.

Lemma insert_by_fmap {A B} (f : A → B) (key : B → nat) x l :
  insert_by key (f x) (f <$> l) = f <$> insert_by (key ∘ f) x l.
Proof.
  induction l as [|y l IH]; csimpl; [done|].
  destruct (decide (key (f x) ≤ key (f y))); [done|]. csimpl. by rewrite IH.
Qed.

Lemma sorted_fmap {A B} (f : A → B) (key : B → nat) l :
  sorted key (f <$> l) = f <$> sorted (key ∘ f) l.
Proof.
  induction l as [|x l IH]; [done|].
  rewrite fmap_cons. unfold sorted in *. cbn [foldr].
  by rewrite IH, insert_by_fmap.
Qed.

Lemma insert_by_reverse_fmap {A B} (f : A → B) (key : B → nat) x l :
  insert_by_reverse key (f x) (f <$> l) = f <$> insert_by_reverse (key ∘ f) x l.
Proof.
  induction l as [|y l IH]; csimpl; [done|].
  destruct (decide (key (f y) ≤ key (f x))); [done|]. csimpl. by rewrite IH.
Qed.

Lemma sorted_reverse_fmap {A B} (f : A → B) (key : B → nat) l :
  sorted_reverse key (f <$> l) = f <$> sorted_reverse (key ∘ f) l.
Proof.
  induction l as [|x l IH]; [done|].
  rewrite fmap_cons. unfold sorted_reverse in *. cbn [foldr].
  by rewrite IH, insert_by_reverse_fmap.
Qed.

Lemma StronglySorted_filter {A} (R : relation A) (P : A → Prop)
    `{∀ x, Decision (P x)} l :
  StronglySorted R l → StronglySorted R (filter P l).
Proof.
  induction 1 as [|x l Hl IH Hx]; [constructor|].
  rewrite filter_cons. destruct (decide (P x)); [|done].
  constructor; [done|]. apply Forall_forall.
  intros y [_ Hy]%list_elem_of_filter. rewrite Forall_forall in Hx. auto.
Qed.

(** The first element of a list sorted by [k2] descending and then by [k1]
    ascending, both stably, is least for [k1] and, among the least,
    greatest for [k2]. *)
Lemma head_two_sorts {A} (k1 k2 : A → nat) (l : list A) :
  l ≠ [] →
  ∃ h, head (sorted k1 (sorted_reverse k2 l)) = Some h ∧ h ∈ l ∧
       (∀ u, u ∈ l → k1 h ≤ k1 u) ∧
       (∀ u, u ∈ l → k1 u = k1 h → k2 u ≤ k2 h).
Proof.
  intros Hne.
  pose proof (sorted_Permutation k1 (sorted_reverse k2 l)) as Hp1.
  pose proof (sorted_reverse_Permutation k2 l) as Hp2.
  pose proof (sorted_StronglySorted k1 (sorted_reverse k2 l)) as Hs1.
  pose proof (sorted_reverse_StronglySorted k2 l) as Hs2.
  pose proof (sorted_filter k1) as Hst.
  destruct (sorted k1 (sorted_reverse k2 l)) as [|h t] eqn:E.
  { rewrite Hp2 in Hp1. apply Permutation_nil_l in Hp1. by subst. }
  exists h. split; [done|].
  apply StronglySorted_cons in Hs1 as [Hh Hs1]. rewrite Forall_forall in Hh.
  split_and!.
  - rewrite <-Hp2, <-Hp1. set_solver.
  - intros u Hu. rewrite <-Hp2, <-Hp1 in Hu.
    apply elem_of_cons in Hu as [->|Hu]; [done|auto].
  - intros u Hu Hk.
    specialize (Hst (k1 h) (sorted_reverse k2 l)). rewrite E in Hst.
    rewrite filter_cons, decide_True in Hst by done.
    apply (StronglySorted_filter _ (λ a, k1 a = k1 h)) in Hs2.
    rewrite <-Hst in Hs2.
    apply StronglySorted_cons in Hs2 as [Hh2 _]. rewrite Forall_forall in Hh2.
    assert (u ∈ h :: filter (λ a, k1 a = k1 h) t) as Hin.
    { rewrite Hst. apply list_elem_of_filter. split; [done|]. by rewrite Hp2. }
    apply elem_of_cons in Hin as [->|Hin]; [done|auto].
Qed.

(** ** The ordering heuristics *)

Section heuristics.
Context (cw : Crossword) (d : gmap Var (gset string)) (a : gmap Var string).

Lemma select_fold l :
  ∀ acc,
    (∀ v, v ∈ l → v ∉ dom a → is_Some (d !! v)) →
    fold_res (λ acc variable,
        if decide (variable ∈ dom a) then Done acc
        else
          dv ← of_option (d !! variable);
          Done (acc ++ [(variable, (size dv, size (neighbors cw variable)))]))
      acc l
    = Done (acc ++ ((λ v, (v, (domain_size d v, degree cw v)))
                      <$> filter (λ v, v ∉ dom a) l)).
Proof.
  induction l as [|v l IH]; intros acc Hl; simpl.
  - by rewrite app_nil_r.
  - rewrite filter_cons. destruct (decide (v ∈ dom a)) as [Hin|Hin]; simpl.
    + rewrite decide_False by tauto. apply IH. intros; apply Hl; set_solver.
    + rewrite decide_True by done.
      destruct (Hl v) as [X HX]; [set_solver|done|]. rewrite HX. simpl.
      rewrite IH by (intros; apply Hl; set_solver).
      rewrite <-app_assoc. simpl.
      unfold domain_size, degree. by rewrite lookup_total_alt, HX.
Qed.

Lemma select_unassigned_variable_eq :
  variables cw ⊆ dom d →
  select_unassigned_variable cw d a
  = of_option (head (sorted (domain_size d) (sorted_reverse (degree cw)
                 (filter (λ v, v ∉ dom a) (elements (variables cw)))))).
Proof.
  intros Hdom. unfold select_unassigned_variable.
  rewrite select_fold.
  2:{ intros v Hv%elem_of_elements _. by apply elem_of_dom, Hdom. }
  simpl. rewrite sorted_reverse_fmap, sorted_fmap, <-list_fmap_compose.
  f_equal. f_equal. apply list_fmap_id.
Qed.

Lemma elimination_inner ix iy w c1 :
  String.get ix w = Some c1 →
  ∀ l count,
    (∀ w', w' ∈ l → iy < String.length w') →
    fold_res (λ count neighbor_domain,
        c1 ← letter w ix;
        c2 ← letter neighbor_domain iy;
        Done (if decide (c1 ≠ c2) then S count else count))
      count l
    = Done (count + length (filter (λ w', String.get iy w' ≠ String.get ix w) l)).
Proof.
  intros Hc1.
  set (f := λ (count : nat) (neighbor_domain : string), _).
  assert (∀ count w', iy < String.length w' →
    f count w' = Done (if decide (String.get iy w' ≠ String.get ix w)
                       then S count else count)) as Hstep.
  { intros count w' Hw'. unfold f, letter. rewrite Hc1. simpl.
    destruct (get_lt w' iy Hw') as [c2 ->]. simpl.
    destruct (decide (c1 ≠ c2)), (decide (Some c2 ≠ Some c1)); try done;
      exfalso; naive_solver. }
  clearbody f.
  induction l as [|w' l IH]; intros count Hl; cbn [fold_res].
  - f_equal. simpl. lia.
  - rewrite Hstep by (apply Hl; set_solver). simpl.
    rewrite IH by (intros; apply Hl; set_solver).
    rewrite filter_cons.
    destruct (decide (String.get iy w' ≠ String.get ix w)); simpl; f_equal; lia.
Qed.

Lemma elimination_outer var w :
  wf_overlaps cw → node_consistent d → var ∈ variables cw →
  String.length w = var_length var →
  ∀ nbrs count,
    (∀ n, n ∈ nbrs →
       n ∈ variables cw ∧ is_Some (overlaps cw var n) ∧ is_Some (d !! n)) →
    fold_res (λ count neighbor,
        intersection_index ← of_option (overlaps cw var neighbor);
        dn ← of_option (d !! neighbor);
        fold_res (λ count neighbor_domain,
            c1 ← letter w (intersection_index.1);
            c2 ← letter neighbor_domain (intersection_index.2);
            Done (if decide (c1 ≠ c2) then S count else count))
          count (elements dn))
      count nbrs
    = Done (count + sum_list_with (conflicts cw d var w) nbrs).
Proof.
  intros Hwf Hnc Hvar Hlen.
  induction nbrs as [|n nbrs IH]; intros count Hn; simpl.
  - f_equal. lia.
  - destruct (Hn n) as (Hnv & [[ix iy] Hov] & [Y HY]); [set_solver|].
    rewrite Hov, HY. simpl.
    destruct (Hwf _ _ _ _ Hvar Hnv Hov) as [Hix Hiy].
    destruct (get_lt w ix) as [c1 Hc1]; [lia|].
    rewrite (elimination_inner ix iy w c1 Hc1).
    2:{ intros w' Hw'%elem_of_elements. by rewrite (Hnc _ _ _ HY Hw'). }
    simpl. rewrite IH by (intros; apply Hn; set_solver).
    f_equal. unfold conflicts at 2. rewrite Hov, lookup_total_alt, HY. simpl.
    rewrite size_filter_elements. lia.
Qed.

Lemma order_domain_values_eq var X :
  wf_overlaps cw → node_consistent d → variables cw ⊆ dom d →
  var ∈ variables cw → d !! var = Some X →
  order_domain_values cw d var a
  = Done (sorted (elimination_count_spec cw d a var) (elements X)).
Proof.
  intros Hwf Hnc Hdom Hvar HX. unfold order_domain_values. rewrite HX. simpl.
  set (nbrs := foldl _ _ _).
  assert (nbrs = filter (λ n, n ∉ dom a) (neighbors cw var)) as ->.
  { apply set_eq. intros n. unfold nbrs.
    rewrite foldl_remove_elem, elem_of_filter, elem_of_elements. tauto. }
  assert (∀ l acc, (∀ w, w ∈ l → w ∈ X) →
    fold_res (λ acc domain,
      c ← elimination_count cw d var
             (elements (filter (λ n, n ∉ dom a) (neighbors cw var))) domain;
      Done (acc ++ [(domain, c)])) acc l
    = Done (acc ++ ((λ w, (w, elimination_count_spec cw d a var w)) <$> l)))
    as Hfold.
  { induction l as [|w l IH]; intros acc Hl; simpl; [by rewrite app_nil_r|].
    unfold elimination_count.
    rewrite (elimination_outer var w Hwf Hnc Hvar).
    - simpl. rewrite IH by (intros; apply Hl; set_solver).
      by rewrite <-app_assoc.
    - eapply Hnc; [exact HX|]. apply Hl. set_solver.
    - intros n [_ (Hn & _ & Hov)%elem_of_neighbors]%elem_of_elements%elem_of_filter.
      split_and!; [done..|]. by apply elem_of_dom, Hdom. }
  rewrite Hfold by (by intros w ?%elem_of_elements). simpl.
  rewrite sorted_fmap, <-list_fmap_compose. f_equal. apply list_fmap_id.
Qed.

End heuristics.

(** ** Soundness of the search *)

Section search.
Context (cw : Crossword) (d : gmap Var (gset string)).

Lemma try_values_sound rec var values :
  sound_call cw rec →
  ∀ a calls r n,
    try_values cw rec var values a calls = Done (r, true, n) →
    assignment_complete cw r = true ∧ consistent cw r = Done true.
Proof.
  intros Hrec. induction values as [|value rest IH]; intros a calls r n; simpl.
  - intros; by simplify_eq.
  - rewrite bind_Done. intros (ok & Hok & H). destruct ok.
    + apply bind_Done in H as ([[a2 result] n'] & Hcall & H). simpl in H.
      destruct (result && bool_decide (a2 ≠ ∅)) eqn:Hres.
      * simplify_eq. apply andb_true_iff in Hres as [-> _].
        destruct (Hrec _ _ _ Hcall) as [Hc [->|Hcons]]; done.
      * apply bind_Done in H as (a3 & _ & H). eauto.
    + apply bind_Done in H as (a3 & _ & H). eauto.
Qed.

Lemma backtrack_sound_call fuel : sound_call cw (backtrack cw d fuel).
Proof.
  induction fuel as [|fuel IH]; intros a r n; simpl; [done|].
  destruct (assignment_complete cw a) eqn:Hc.
  - intros; simplify_eq. auto.
  - rewrite bind_Done. intros (var & _ & H).
    apply bind_Done in H as (values & _ & H).
    apply (try_values_sound _ _ _ IH) in H as [? ?]. auto.
Qed.

End search.

(** With a slot whose domain is empty, the search from the empty dict tries
    nothing and returns [None]. *)
Lemma backtrack_empty_domain cw d fuel x :
  variables cw ⊆ dom d → x ∈ variables cw → d !! x = Some ∅ →
  backtrack cw d (S fuel) ∅ = Done (∅, false, 1).
Proof.
  intros Hdom Hx HX. simpl.
  destruct (assignment_complete cw ∅) eqn:Hc.
  { destruct (proj1 (assignment_complete_true _ _) Hc x Hx) as (w & Hw & _).
    by rewrite lookup_empty in Hw. }
  rewrite select_unassigned_variable_eq by done.
  destruct (head_two_sorts (domain_size d) (degree cw)
              (filter (λ v, v ∉ dom (∅ : gmap Var string)) (elements (variables cw))))
    as (v & -> & Hv & Hmin & _).
  { intros Hnil. assert (x ∈ filter (λ v, v ∉ dom (∅ : gmap Var string)) (elements (variables cw))) as Hin.
    { apply list_elem_of_filter. split; [set_solver|by apply elem_of_elements]. }
    rewrite Hnil in Hin. by apply elem_of_nil in Hin. }
  simpl. apply list_elem_of_filter in Hv as [_ Hv%elem_of_elements].
  assert (d !! v = Some ∅) as HV.
  { pose proof (Hdom v Hv) as [V HV]%elem_of_dom. rewrite HV. f_equal.
    assert (domain_size d v ≤ domain_size d x) as Hle.
    { apply Hmin, list_elem_of_filter. split; [set_solver|by apply elem_of_elements]. }
    unfold domain_size in Hle. rewrite !lookup_total_alt, HV, HX in Hle.
    change (size V ≤ size (∅ : gset string)) in Hle.
    rewrite size_empty in Hle. apply leibniz_equiv, size_empty_iff. lia. }
  unfold order_domain_values. rewrite HV. simpl. rewrite elements_empty. done.
Qed.

(** * Puzzles built from grids *)

Lemma index_of_lt {A} `{EqDecision A} (x : A) l i :
  index_of x l = Some i → i < length l.
Proof.
  revert i. induction l as [|y l IH]; intros i; simpl; [done|].
  destruct (decide (x = y)); [intros; simplify_eq; lia|].
  destruct (index_of x l) as [k|]; simpl; [|done].
  intros; simplify_eq. specialize (IH k eq_refl). lia.
Qed.

Lemma cells_length v : length (cells v) = var_length v.
Proof. unfold cells. by rewrite length_fmap, length_seq. Qed.

Lemma grid_overlaps_wf slots vocabulary :
  wf_overlaps (grid_crossword slots vocabulary).
Proof.
  intros x y ix iy _ _. simpl. unfold grid_overlaps.
  destruct (decide (x = y)); [done|].
  destruct (filter _ (cells x)) as [|c ?]; [done|].
  destruct (index_of c (cells x)) as [kx|] eqn:Hx; simpl; [|done].
  destruct (index_of c (cells y)) as [ky|] eqn:Hy; simpl; [|done].
  intros; simplify_eq.
  apply index_of_lt in Hx, Hy. rewrite cells_length in Hx, Hy. done.
Qed.

(** A decidable statement about concrete puzzles, settled by evaluation. *)
Ltac by_evaluation := refine (bool_decide_unpack _ _); vm_compute; exact I.

(** ** Termination: the budgets are never exhausted *)

Lemma fold_res_no_timeout {A S} (f : S → A → res S) l :
  (∀ s x, f s x ≠ Timeout) → ∀ s, fold_res f s l ≠ Timeout.
Proof.
  intros Hf. induction l as [|x l IH]; intros s; simpl; [done|].
  specialize (Hf s x). destruct (f s x); simpl; auto.
Qed.

Lemma all_res_no_timeout {A} (f : A → res bool) l :
  (∀ x, f x ≠ Timeout) → all_res f l ≠ Timeout.
Proof.
  intros Hf. induction l as [|x l IH]; simpl; [done|].
  specialize (Hf x). destruct (f x) as [[]| |]; simpl; auto.
Qed.

Lemma of_option_no_timeout {A} (o : option A) : of_option o ≠ Timeout.
Proof. by destruct o. Qed.

Lemma bind_no_timeout {A B} (m : res A) (f : A → res B) :
  m ≠ Timeout → (∀ a, f a ≠ Timeout) → m ≫= f ≠ Timeout.
Proof. destruct m; simpl; auto. Qed.

Lemma letter_no_timeout w i : letter w i ≠ Timeout.
Proof. apply of_option_no_timeout. Qed.

Lemma revise_no_timeout cw d x y : revise cw d x y ≠ Timeout.
Proof.
  unfold revise.
  apply bind_no_timeout; [apply of_option_no_timeout|]. intros ii.
  apply bind_no_timeout; [apply of_option_no_timeout|]. intros dy.
  apply bind_no_timeout.
  { apply fold_res_no_timeout. intros acc w.
    apply bind_no_timeout; [apply letter_no_timeout|done]. }
  intros C. apply bind_no_timeout; [apply of_option_no_timeout|]. intros dx.
  apply fold_res_no_timeout. intros st w. unfold revise_step.
  apply bind_no_timeout; [apply letter_no_timeout|]. intros c.
  destruct (decide (c ∉ C)); [|done].
  apply bind_no_timeout; [apply of_option_no_timeout|done].
Qed.

(** Every turn of the loop of [ac3] removes a word or shortens the work
    list. *)
Lemma ac3_loop_no_timeout cw :
  ∀ fuel d stack,
    length stack + total_size d * S (size (variables cw)) ≤ fuel →
    ac3_loop cw fuel d stack ≠ Timeout.
Proof.
  induction fuel as [|fuel IH]; intros d stack Hfuel.
  - destruct stack; simpl in *; [done|lia].
  - destruct stack as [|[x y] rest]; simpl in *; [done|].
    unfold ac3_step. simpl.
    destruct (revise cw d x y) as [[d' []]| |] eqn:Hrev; simpl; [| |done|].
    + destruct (d' !! x) as [X'|]; simpl; [|done].
      destruct (decide (size X' = 0)); simpl; [done|].
      apply revise_shrinks in Hrev. apply IH.
      pose proof (push_neighbors_length cw x y rest). nia.
    + apply revise_Done in Hrev
        as (? & ? & ? & ? & ? & _ & _ & _ & _ & _ & _ & _ & Hid).
      rewrite (Hid eq_refl). apply IH. lia.
    + by apply revise_no_timeout in Hrev.
Qed.

Lemma ac3_no_timeout cw d arcs : ac3 cw d arcs ≠ Timeout.
Proof.
  unfold ac3. apply ac3_loop_no_timeout. unfold ac3_fuel.
  by rewrite length_reverse.
Qed.

Lemma consistent_no_timeout cw (a : gmap Var string) : consistent cw a ≠ Timeout.
Proof.
  unfold consistent. destruct (decide _); [done|]. destruct (negb _); [done|].
  apply all_res_no_timeout. intros item. apply all_res_no_timeout. intros y.
  apply bind_no_timeout; [apply of_option_no_timeout|]. intros ii.
  destruct (a !! y); [|done].
  apply bind_no_timeout; [apply letter_no_timeout|]. intros c1.
  apply bind_no_timeout; [apply letter_no_timeout|]. done.
Qed.

Lemma select_unassigned_variable_no_timeout cw d (a : gmap Var string) :
  select_unassigned_variable cw d a ≠ Timeout.
Proof.
  unfold select_unassigned_variable.
  apply bind_no_timeout; [|intros; apply of_option_no_timeout].
  apply fold_res_no_timeout. intros acc v. destruct (decide _); [done|].
  apply bind_no_timeout; [apply of_option_no_timeout|done].
Qed.

Lemma order_domain_values_no_timeout cw d var (a : gmap Var string) :
  order_domain_values cw d var a ≠ Timeout.
Proof.
  unfold order_domain_values.
  apply bind_no_timeout; [apply of_option_no_timeout|]. intros dvar.
  apply bind_no_timeout; [|done].
  apply fold_res_no_timeout. intros acc w.
  apply bind_no_timeout; [|done].
  unfold elimination_count. apply fold_res_no_timeout. intros count n.
  apply bind_no_timeout; [apply of_option_no_timeout|]. intros ii.
  apply bind_no_timeout; [apply of_option_no_timeout|]. intros dn.
  apply fold_res_no_timeout. intros count' w'.
  apply bind_no_timeout; [apply letter_no_timeout|]. intros c1.
  apply bind_no_timeout; [apply letter_no_timeout|]. done.
Qed.

Lemma del_Done var (a r : gmap Var string) :
  del var a = Done r → is_Some (a !! var) ∧ r = delete var a.
Proof. unfold del. destruct (decide _); intros; by simplify_eq. Qed.

(** The slot that [select_unassigned_variable] returns is an unassigned
    slot of the puzzle. *)
Lemma select_unassigned_variable_Done cw d (a : gmap Var string) v :
  select_unassigned_variable cw d a = Done v → v ∈ variables cw ∧ a !! v = None.
Proof.
  unfold select_unassigned_variable. rewrite bind_Done.
  intros (items & Hfold & Hhead%of_option_Done).
  assert (Forall (λ item : Var * (nat * nat),
            item.1 ∈ variables cw ∧ a !! item.1 = None) items) as Hitems.
  { revert Hfold. apply fold_res_ind; [constructor|].
    intros acc u acc' Hu%elem_of_elements Hacc.
    destruct (decide (u ∈ dom a)) as [|Hn]; [intros; by simplify_eq|].
    rewrite bind_Done. intros (dv & _ & ?); simplify_eq.
    apply Forall_app. split; [done|]. constructor; [|done].
    split; [done|]. by apply not_elem_of_dom. }
  apply head_Some_elem_of, list_elem_of_fmap in Hhead as (item & -> & Hin).
  rewrite sorted_Permutation, sorted_reverse_Permutation in Hin.
  rewrite Forall_forall in Hitems. by apply Hitems.
Qed.

Section termination.
Context (cw : Crossword) (d : gmap Var (gset string)).

Lemma try_values_restoring rec var values :
  restoring rec →
  ∀ (a : gmap Var string) calls r n,
    a !! var = None →
    try_values cw rec var values a calls = Done (r, false, n) → r = a.
Proof.
  intros Hrec. induction values as [|value rest IH]; intros a calls r n Hvar; simpl.
  - intros; by simplify_eq.
  - rewrite bind_Done. intros (ok & _ & H). destruct ok.
    + apply bind_Done in H as ([[a2 result] n'] & Hcall & H). simpl in H.
      destruct (result && bool_decide (a2 ≠ ∅)) eqn:Hres; [by simplify_eq|].
      apply bind_Done in H as (a3 & [Hin ->]%del_Done & H).
      destruct result.
      * simpl in Hres. apply bool_decide_eq_false in Hres.
        assert (a2 = ∅) as -> by (by destruct (decide (a2 = ∅))).
        rewrite lookup_empty in Hin. by destruct Hin.
      * apply Hrec in Hcall as ->. rewrite delete_insert_id in H by done. eauto.
    + apply bind_Done in H as (a3 & [_ ->]%del_Done & H).
      rewrite delete_insert_id in H by done. eauto.
Qed.

Lemma backtrack_restoring fuel : restoring (backtrack cw d fuel).
Proof.
  induction fuel as [|fuel IH]; intros a r n; simpl; [done|].
  destruct (assignment_complete cw a); [intros; by simplify_eq|].
  rewrite bind_Done. intros (var & [_ Hvar]%select_unassigned_variable_Done & H).
  apply bind_Done in H as (values & _ & H).
  by apply (try_values_restoring _ _ _ IH) in H.
Qed.

Lemma try_values_no_timeout rec var values :
  restoring rec →
  ∀ (a : gmap Var string) calls,
    a !! var = None →
    (∀ value, rec (<[var := value]> a) ≠ Timeout) →
    try_values cw rec var values a calls ≠ Timeout.
Proof.
  intros Hrec. induction values as [|value rest IH]; intros a calls Hvar Hcall; simpl;
    [done|].
  apply bind_no_timeout; [apply consistent_no_timeout|]. intros [].
  - pose proof (Hcall value) as Hc.
    destruct (rec (<[var:=value]> a)) as [[[a2 result] n']| |] eqn:E; simpl; [|done..].
    destruct (result && bool_decide (a2 ≠ ∅)) eqn:Hres; [done|].
    destruct (del var a2) as [a3| |] eqn:Hdel; simpl; [|done|].
    2:{ unfold del in Hdel. by destruct (decide _). }
    apply del_Done in Hdel as [Hin ->]. destruct result.
    + simpl in Hres. apply bool_decide_eq_false in Hres.
      assert (a2 = ∅) as -> by (by destruct (decide (a2 = ∅))).
      rewrite lookup_empty in Hin. by destruct Hin.
    + apply Hrec in E as ->. rewrite delete_insert_id by done. by apply IH.
  - unfold del. rewrite decide_True by (rewrite lookup_insert_eq; eauto).
    simpl. rewrite delete_insert_id by done. by apply IH.
Qed.

(** Every activation assigns one more slot of the puzzle. *)
Lemma backtrack_no_timeout fuel :
  ∀ a : gmap Var string,
    size (variables cw ∖ dom a) < fuel → backtrack cw d fuel a ≠ Timeout.
Proof.
  induction fuel as [|fuel IH]; intros a Hfuel; [lia|]. simpl.
  destruct (assignment_complete cw a); [done|].
  destruct (select_unassigned_variable cw d a) as [var| |] eqn:Hsel; simpl;
    [|done|by apply select_unassigned_variable_no_timeout in Hsel].
  apply select_unassigned_variable_Done in Hsel as [Hvar Hnone].
  destruct (order_domain_values cw d var a) as [values| |] eqn:Hval; simpl;
    [|done|by apply order_domain_values_no_timeout in Hval].
  apply try_values_no_timeout; [apply backtrack_restoring|done|].
  intros value. apply IH.
  assert (variables cw ∖ dom (<[var:=value]> a) ⊂ variables cw ∖ dom a) as Hsub.
  { rewrite dom_insert_L. apply not_elem_of_dom in Hnone. set_solver. }
  apply subset_size in Hsub. lia.
Qed.
End termination.

Lemma backtrack_terminates cw d :
  backtrack cw d (S (size (variables cw))) ∅ ≠ Timeout.
Proof.
  apply backtrack_no_timeout.
  assert (size (variables cw ∖ dom (∅ : gmap Var string)) ≤ size (variables cw));
    [apply subseteq_size; set_solver|lia].
Qed.

(** [solve] never exhausts the budgets of its two loops. *)
Lemma solve_no_timeout cw : solve cw ≠ Timeout.
Proof.
  unfold solve.
  destruct (ac3 cw (enforce_node_consistency (init_domains cw)) None)
    as [[d' b]| |] eqn:Hac3; [|done|by apply ac3_no_timeout in Hac3].
  cbn -[backtrack].
  pose proof (backtrack_terminates cw d') as Hbt.
  by destruct (backtrack cw d' (S (size (variables cw))) ∅) as [[[a r] n]| |].
Qed.

(** ** Totality of the search and of [solve] *)

Lemma forallb_false_elem {A} (f : A → bool) l :
  forallb f l = false → ∃ x, x ∈ l ∧ f x = false.
Proof.
  induction l as [|x l IH]; simpl; [done|].
  destruct (f x) eqn:E; simpl.
  - intros (y & ? & ?)%IH. exists y. split; [by right|done].
  - intros _. exists x. split; [by left|done].
Qed.

Lemma ac3_loop_node_consistent cw :
  ∀ fuel d stack d' b,
    ac3_loop cw fuel d stack = Done (d', b) →
    node_consistent d → node_consistent d'.
Proof.
  induction fuel as [|fuel IH]; intros d stack d' b; destruct stack as [|[x y] rest];
    simpl; try (intros; by simplify_eq).
  rewrite bind_Done. intros (st & Hstep & Hr) Hnc.
  unfold ac3_step in Hstep. apply bind_Done in Hstep as ([d1 ch] & Hrev & Hstep).
  simpl in Hstep. pose proof (revise_node_consistent _ _ _ _ _ _ Hrev Hnc) as Hnc1.
  destruct ch.
  - apply bind_Done in Hstep as (X' & _ & Hstep).
    destruct (decide (size X' = 0)); simplify_eq; [done|]. eauto.
  - simplify_eq. eauto.
Qed.

Section total.
Context (cw : Crossword) (d : gmap Var (gset string)).
Context (Hwf : wf_overlaps cw) (Hnc : node_consistent d).
Context (Hdom : variables cw ⊆ dom d).
Context (Hpos : ∀ v, v ∈ variables cw → 0 < var_length v).

Lemma incomplete_unassigned (a : gmap Var string) :
  search_assignment cw a → assignment_complete cw a = false →
  ∃ v, v ∈ variables cw ∧ a !! v = None.
Proof.
  intros [_ Hlen] (v & Hv%elem_of_elements & Hf)%forallb_false_elem.
  exists v. split; [done|]. destruct (a !! v) as [w|] eqn:Hw; [|done].
  exfalso. destruct (decide (w = ""%string)) as [->|Hne].
  - apply Hlen in Hw. specialize (Hpos v Hv). simpl in Hw. lia.
  - apply bool_decide_eq_false in Hf. destruct w; [done|simpl in Hf; lia].
Qed.

Lemma try_values_total rec var values :
  restoring rec → sound_call cw rec → var ∈ variables cw →
  ∀ (a : gmap Var string) calls,
    search_assignment cw a → a !! var = None →
    (∀ value, search_assignment cw (<[var := value]> a) →
       ∃ r, rec (<[var := value]> a) = Done r) →
    ∃ r, try_values cw rec var values a calls = Done r.
Proof.
  intros Hrest Hsound Hvar.
  induction values as [|value rest IH]; intros a calls Ha Hnone Hcall; simpl;
    [eauto|].
  assert (dom (<[var:=value]> a) ⊆ variables cw) as Hd1.
  { rewrite dom_insert_L. destruct Ha. set_solver. }
  destruct (consistent_total_iff cw (<[var:=value]> a) Hwf Hd1) as (ok & -> & Hok).
  simpl. destruct ok.
  - destruct Hok as [(_ & Hlen & _) _]; [done|].
    destruct (Hcall value) as [[[a2 result] n] Hr]; [by split|].
    rewrite Hr. simpl. destruct result; simpl.
    + destruct (Hsound _ _ _ Hr) as [Hc _].
      destruct (proj1 (assignment_complete_true cw a2) Hc var Hvar) as (w & Hw & _).
      rewrite bool_decide_eq_true_2; [eauto|].
      intros ->. by rewrite lookup_empty in Hw.
    + apply Hrest in Hr as ->. unfold del.
      rewrite decide_True by (rewrite lookup_insert_eq; eauto).
      simpl. rewrite delete_insert_id by done. by apply IH.
  - unfold del. rewrite decide_True by (rewrite lookup_insert_eq; eauto).
    simpl. rewrite delete_insert_id by done. by apply IH.
Qed.

Lemma backtrack_total fuel :
  ∀ a : gmap Var string,
    search_assignment cw a → size (variables cw ∖ dom a) < fuel →
    ∃ r, backtrack cw d fuel a = Done r.
Proof.
  induction fuel as [|fuel IH]; intros a Ha Hfuel; [lia|]. simpl.
  destruct (assignment_complete cw a) eqn:Hc; [eauto|].
  destruct (incomplete_unassigned a Ha Hc) as (u & Hu & Hnone).
  rewrite select_unassigned_variable_eq by done.
  destruct (head_two_sorts (domain_size d) (degree cw)
              (filter (λ v, v ∉ dom a) (elements (variables cw))))
    as (var & -> & Hvin & _).
  { intros Hnil.
    assert (u ∈ filter (λ v, v ∉ dom a) (elements (variables cw))) as Hin.
    { apply list_elem_of_filter. split; [by apply not_elem_of_dom|].
      by apply elem_of_elements. }
    rewrite Hnil in Hin. by apply elem_of_nil in Hin. }
  apply list_elem_of_filter in Hvin as [Hva Hvar%elem_of_elements].
  apply not_elem_of_dom in Hva. simpl.
  pose proof (Hdom var Hvar) as [X HX]%elem_of_dom.
  rewrite (order_domain_values_eq cw d a var X) by done. simpl.
  apply try_values_total;
    [apply backtrack_restoring|apply backtrack_sound_call|done..|].
  intros value Hgood. apply IH; [done|].
  assert (variables cw ∖ dom (<[var:=value]> a) ⊂ variables cw ∖ dom a) as Hsub.
  { rewrite dom_insert_L. apply not_elem_of_dom in Hva. set_solver. }
  apply subset_size in Hsub. lia.
Qed.
End total.

(** On a puzzle whose slots have a positive length and whose overlap indices
    lie inside the slots, [solve] returns: it neither raises nor runs out of
    its budget. *)
Lemma solve_total cw :
  wf_overlaps cw → (∀ v, v ∈ variables cw → 0 < var_length v) →
  ∃ r n, solve cw = Done (r, n).
Proof.
  intros Hwf Hpos. unfold solve.
  pose proof (enforce_node_consistent (init_domains cw)) as Hnc.
  pose proof (enforce_node_consistency_dom (init_domains cw)) as Hd.
  rewrite init_domains_dom in Hd.
  destruct (ac3_total cw _ Hwf Hnc) as (d' & b & Hac3); [by rewrite Hd|].
  rewrite Hac3. cbn -[backtrack].
  unfold ac3 in Hac3. simpl in Hac3.
  pose proof (ac3_loop_dom _ _ _ _ _ _ Hac3) as Hd'.
  pose proof (ac3_loop_node_consistent _ _ _ _ _ _ Hac3 Hnc) as Hnc'.
  destruct (backtrack_total cw d' Hwf Hnc') with (fuel := S (size (variables cw)))
                                                 (a := (∅ : gmap Var string))
    as [[[a result] n] ->]; [by rewrite Hd', Hd|done| | |].
  - split; [set_solver|]. by intros x w ?%lookup_empty_Some.
  - assert (size (variables cw ∖ dom (∅ : gmap Var string)) ≤ size (variables cw));
      [apply subseteq_size; set_solver|lia].
  - simpl. eauto.
Qed.

(** ** Every run of [ac3] on the ring puzzle *)

(** A turn of the loop treats the rest of the work list as a tail. *)
Lemma ac3_step_rest cw d arc rest d' stack :
  ac3_step cw d arc [] = Done (Running d' stack) →
  ac3_step cw d arc rest = Done (Running d' (stack ++ rest)).
Proof.
  unfold ac3_step. destruct (revise cw d arc.1 arc.2) as [[d1 []]| |]; simpl;
    try done.
  - destruct (d1 !! arc.1) as [X|]; simpl; [|done].
    destruct (decide (size X = 0)); [done|].
    intros ?; simplify_eq.
    rewrite (push_neighbors_eq _ _ _ rest), (push_neighbors_eq _ _ _ []).
    by rewrite app_nil_r.
  - intros ?; by simplify_eq.
Qed.

Lemma arc_inconsistent cw (d : gmap Var (gset string)) x y ix iy X Y w :
  x ∈ variables cw → y ∈ neighbors cw x → overlaps cw x y = Some (ix, iy) →
  d !! x = Some X → d !! y = Some Y → w ∈ X →
  Forall (λ w', String.get iy w' ≠ String.get ix w) (elements Y) →
  ¬ arc_consistent cw d.
Proof.
  intros Hx Hy Hov HX HY Hw Hall Harc.
  destruct (Harc x y ix iy X Y w Hx Hy Hov HX HY Hw) as (w' & c & Hw' & Hc & Hc').
  rewrite Forall_forall in Hall. apply (Hall w'); [by apply elem_of_elements|].
  congruence.
Qed.

Lemma ring_stage_not_arc_consistent k :
  k ≤ 4 → ¬ arc_consistent Examples.ring (Examples.ring_stage k).
Proof.
  intros Hk.
  destruct k as [|[|[|[|[|k]]]]]; [| | | | |lia].
  - apply (arc_inconsistent _ _ Examples.d1 Examples.a1 1 0
             {["BABAB"; "BXBBB"; "BEBAB"]}%string {["ABA"; "EBD"]}%string
             "BXBBB"%string); by_evaluation.
  - apply (arc_inconsistent _ _ Examples.a2 Examples.d1 1 3
             {["BABA"; "BBBC"]}%string {["BABAB"; "BEBAB"]}%string
             "BBBC"%string); by_evaluation.
  - apply (arc_inconsistent _ _ Examples.d2 Examples.a2 2 3
             {["ABABBB"; "DBCBBB"]}%string {["BABA"]}%string
             "DBCBBB"%string); by_evaluation.
  - apply (arc_inconsistent _ _ Examples.a1 Examples.d2 2 0
             {["ABA"; "EBD"]}%string {["ABABBB"]}%string
             "EBD"%string); by_evaluation.
  - apply (arc_inconsistent _ _ Examples.d1 Examples.a1 1 0
             {["BABAB"; "BEBAB"]}%string {["ABA"]}%string
             "BEBAB"%string); by_evaluation.
Qed.

(** The table of the turns of the loop on the reachable stores. *)
Lemma ring_step_table :
  Forall (λ k,
    Forall (λ arc,
      (k = 0 ∨ arc ≠ (Examples.d1, Examples.a1)) →
      ac3_step Examples.ring (Examples.ring_stage k) arc []
      = Done (Running (Examples.ring_stage (Examples.ring_next k arc).1)
                      (Examples.ring_next k arc).2) ∧
      (Examples.ring_next k arc).1 ≤ 4 ∧
      Forall (λ arc', arc' ∈ all_arcs Examples.ring ∧
                      arc' ≠ (Examples.d1, Examples.a1))
             (Examples.ring_next k arc).2 ∧
      ((Examples.ring_next k arc).1 = k ∧ (Examples.ring_next k arc).2 = [] ∨
       (Examples.ring_next k arc).1 ≠ 0 ∧
       (k = 0 → arc = (Examples.d1, Examples.a1))))
      (all_arcs Examples.ring))
    (seq 0 5).
Proof. by_evaluation. Qed.

Lemma ring_loop fuel :
  ∀ k stack d' b,
    Examples.ring_invariant k stack →
    ac3_loop Examples.ring fuel (Examples.ring_stage k) stack = Done (d', b) →
    ∃ k', k' ≤ 4 ∧ d' = Examples.ring_stage k' ∧ b = true.
Proof.
  induction fuel as [|fuel IH]; intros k stack d' b (Hk & Hvalid & Honce);
    destruct stack as [|arc rest]; simpl; try (intros; simplify_eq; by eauto).
  apply Forall_cons in Hvalid as [Harc Hrest].
  pose proof ring_step_table as Htab. rewrite Forall_forall in Htab.
  specialize (Htab k). rewrite Forall_forall in Htab.
  destruct (Htab ltac:(apply elem_of_seq; lia) arc Harc)
    as (Hstep & Hk' & Hnew & Hcase).
  { destruct (decide (k = 0)); [by left|right].
    intros ->. apply Honce. by left. }
  rewrite (ac3_step_rest _ _ _ rest _ _ Hstep). simpl.
  apply IH. split_and!; [done| |].
  - apply Forall_app. split; [|done].
    eapply Forall_impl; [exact Hnew|]. by intros ? [? _].
  - destruct Hcase as [[-> ->]|[Hne Hfirst]]; simpl.
    + destruct (decide (k = 0)).
      * by apply NoDup_cons in Honce as [_ ?].
      * intros ?. apply Honce. by right.
    + rewrite decide_False by done. intros [Hin|Hin]%elem_of_app.
      * rewrite Forall_forall in Hnew. by destruct (Hnew _ Hin).
      * destruct (decide (k = 0)) as [->|].
        -- rewrite (Hfirst eq_refl) in Honce.
           by apply NoDup_cons in Honce as [? _].
        -- apply Honce. by right.
Qed.

(** Whatever the order in which the arcs are first listed, [ac3] returns
    success on the ring puzzle and leaves a store that is not arc
    consistent. *)
Lemma ac3_ring_any_order arcs :
  arcs ≡ₚ all_arcs Examples.ring →
  ∃ d', ac3 Examples.ring Examples.ring_domains (Some arcs) = Done (d', true) ∧
        ¬ arc_consistent Examples.ring d'.
Proof.
  intros Hperm.
  assert (Examples.ring_domains
          = enforce_node_consistency (init_domains Examples.ring)) as Hd
    by by_evaluation.
  unfold ac3. simpl.
  destruct (ac3_loop_total Examples.ring (grid_overlaps_wf _ _)
              (ac3_fuel Examples.ring Examples.ring_domains arcs)
              Examples.ring_domains (reverse arcs)) as (d' & b & Hloop).
  - unfold ac3_fuel. by rewrite length_reverse.
  - rewrite Hd. apply enforce_node_consistent.
  - by_evaluation.
  - apply Forall_reverse. rewrite Hperm. apply all_arcs_valid.
  - rewrite Hloop.
    destruct (ring_loop (ac3_fuel Examples.ring Examples.ring_domains arcs) 0
                (reverse arcs) d' b) as (k' & Hk' & -> & ->);
      [|exact Hloop|].
    + split_and!; [lia| |].
      * apply Forall_reverse, Forall_forall. intros arc. by rewrite Hperm.
      * simpl. rewrite reverse_Permutation, Hperm. by_evaluation.
    + eexists. split; [done|]. by apply ring_stage_not_arc_consistent.
Qed.

(** * The properties of the specification *)

(** C8.  After [enforce_node_consistency] every word left in the domain of a
    slot has the length of the slot, and no word of that length has been
    removed from it. *)
Theorem enforce_node_consistency_lengths (d : gmap Var (gset string)) v X :
  d !! v = Some X →
  ∃ X', enforce_node_consistency d !! v = Some X' ∧
        (∀ w, w ∈ X' → String.length w = var_length v) ∧
        (∀ w, w ∈ X → String.length w = var_length v → w ∈ X').
Proof.
  intros HX. exists (node_filter v X).
  rewrite enforce_node_consistency_lookup, HX. split; [done|].
  split; intros w; rewrite node_filter_elem; tauto.
Qed.

Lemma enforce_node_consistency_lengths_witness :
  ∃ X', enforce_node_consistency (init_domains Examples.ring) !! Examples.a1
          = Some X' ∧
        (∀ w, w ∈ X' → String.length w = 3) ∧
        (∀ w, w ∈ words Examples.ring → String.length w = 3 → w ∈ X').
Proof.
  apply (enforce_node_consistency_lengths
           (init_domains Examples.ring) Examples.a1 (words Examples.ring)).
  by_evaluation.
Defined.

(** C9.  [assignment_complete] holds only when every slot of the puzzle is
    mapped to a non-empty word; a slot mapped to the empty string makes it
    false, as an absent slot does. *)
Theorem assignment_complete_nonempty cw (a : gmap Var string) v :
  v ∈ variables cw →
  (assignment_complete cw a = true → ∃ w, a !! v = Some w ∧ w ≠ ""%string) ∧
  (a !! v = Some ""%string → assignment_complete cw a = false).
Proof.
  intros Hv. split.
  - intros Hc. by apply (proj1 (assignment_complete_true cw a) Hc).
  - intros Hempty. apply not_true_iff_false. intros Hc.
    destruct (proj1 (assignment_complete_true cw a) Hc v Hv) as (w & Hw & Hne).
    by simplify_eq.
Qed.

Lemma assignment_complete_nonempty_witness :
  (assignment_complete Examples.clash
     {[Examples.h2 := "AB"%string; Examples.v3 := ""%string]} = true →
   ∃ w, ({[Examples.h2 := "AB"%string; Examples.v3 := ""%string]}
           : gmap Var string) !! Examples.v3 = Some w ∧ w ≠ ""%string) ∧
  (({[Examples.h2 := "AB"%string; Examples.v3 := ""%string]}
      : gmap Var string) !! Examples.v3 = Some ""%string →
   assignment_complete Examples.clash
     {[Examples.h2 := "AB"%string; Examples.v3 := ""%string]} = false).
Proof.
  apply (assignment_complete_nonempty Examples.clash
           {[Examples.h2 := "AB"%string; Examples.v3 := ""%string]}
           Examples.v3).
  by_evaluation.
Defined.

(** C10.  For neighboring slots [x] and [y], [revise(x, y)] returns, and
    whatever boolean it returns the domain of every slot other than [x] is
    what it was before the call. *)
Theorem revise_frame cw (d : gmap Var (gset string)) x y :
  wf_overlaps cw → node_consistent d → variables cw ⊆ dom d →
  x ∈ variables cw → y ∈ neighbors cw x →
  ∃ d' b, revise cw d x y = Done (d', b) ∧ ∀ v, v ≠ x → d' !! v = d !! v.
Proof.
  intros Hwf Hnc Hdom Hx Hy.
  destruct (revise_total_wf cw d x y Hwf Hnc Hdom) as (d' & b & Hrev);
    [by split|].
  exists d', b. split; [done|].
  apply revise_Done in Hrev
    as (? & ? & ? & ? & ? & _ & _ & _ & _ & _ & Hfr & _). exact Hfr.
Qed.

Lemma revise_frame_witness :
  ∃ d' b,
    revise Examples.ring (enforce_node_consistency (init_domains Examples.ring))
      Examples.d1 Examples.a1 = Done (d', b) ∧
    ∀ v, v ≠ Examples.d1 →
      d' !! v = enforce_node_consistency (init_domains Examples.ring) !! v.
Proof.
  apply (revise_frame Examples.ring
           (enforce_node_consistency (init_domains Examples.ring))
           Examples.d1 Examples.a1).
  - apply grid_overlaps_wf.
  - apply enforce_node_consistent.
  - by_evaluation.
  - by_evaluation.
  - by_evaluation.
Defined.

(** C4.  [consistent] returns true exactly when the assigned words are
    pairwise distinct, every assigned word has the length of its slot, and
    every two assigned neighboring slots carry the same letter at their
    crossing. *)
Theorem consistent_correct cw (a : gmap Var string) :
  wf_overlaps cw → dom a ⊆ variables cw →
  ∃ b, consistent cw a = Done b ∧
       (b = true ↔ distinct_values a ∧ lengths_match a ∧ overlaps_agree cw a).
Proof. apply consistent_total_iff. Qed.

Lemma consistent_correct_witness :
  ∃ b, consistent Examples.ring
         {[Examples.a1 := "ABA"%string; Examples.d1 := "BABAB"%string]} = Done b ∧
       (b = true ↔
        distinct_values
          {[Examples.a1 := "ABA"%string; Examples.d1 := "BABAB"%string]} ∧
        lengths_match
          {[Examples.a1 := "ABA"%string; Examples.d1 := "BABAB"%string]} ∧
        overlaps_agree Examples.ring
          {[Examples.a1 := "ABA"%string; Examples.d1 := "BABAB"%string]}).
Proof.
  apply (consistent_correct Examples.ring
           {[Examples.a1 := "ABA"%string; Examples.d1 := "BABAB"%string]}).
  - apply grid_overlaps_wf.
  - by_evaluation.
Defined.

(** C6.  When some slot is unassigned, [select_unassigned_variable] returns
    an unassigned slot whose domain is smallest among the unassigned slots
    and whose degree is largest among the unassigned slots with a domain of
    that size. *)
Theorem select_unassigned_variable_mrv_degree cw
    (d : gmap Var (gset string)) (a : gmap Var string) u0 :
  variables cw ⊆ dom d → u0 ∈ variables cw → a !! u0 = None →
  ∃ v, select_unassigned_variable cw d a = Done v ∧
       v ∈ variables cw ∧ a !! v = None ∧
       (∀ u, u ∈ variables cw → a !! u = None →
          domain_size d v ≤ domain_size d u) ∧
       (∀ u, u ∈ variables cw → a !! u = None →
          domain_size d u = domain_size d v → degree cw u ≤ degree cw v).
Proof.
  intros Hdom Hu0 Hu0a.
  assert (∀ u, u ∈ filter (λ v, v ∉ dom a) (elements (variables cw))
             ↔ u ∈ variables cw ∧ a !! u = None) as Hun.
  { intros u. rewrite list_elem_of_filter, elem_of_elements, not_elem_of_dom.
    tauto. }
  rewrite select_unassigned_variable_eq by done.
  destruct (head_two_sorts (domain_size d) (degree cw)
              (filter (λ v, v ∉ dom a) (elements (variables cw))))
    as (v & -> & Hv & Hmin & Hdeg).
  { intros Hnil. assert (u0 ∈ @nil Var) as Hin by (rewrite <-Hnil; by apply Hun).
    by apply elem_of_nil in Hin. }
  apply Hun in Hv as [Hv Hva].
  exists v. split_and!; try done.
  - intros u ? ?. apply Hmin, Hun. done.
  - intros u ? ? ?. apply Hdeg; [by apply Hun|done].
Qed.

Lemma select_unassigned_variable_mrv_degree_witness :
  ∃ v, select_unassigned_variable Examples.ring
         (enforce_node_consistency (init_domains Examples.ring))
         {[Examples.a1 := "ABA"%string]} = Done v ∧
       v ∈ variables Examples.ring ∧
       ({[Examples.a1 := "ABA"%string]} : gmap Var string) !! v = None ∧
       (∀ u, u ∈ variables Examples.ring →
          ({[Examples.a1 := "ABA"%string]} : gmap Var string) !! u = None →
          domain_size (enforce_node_consistency (init_domains Examples.ring)) v
          ≤ domain_size (enforce_node_consistency (init_domains Examples.ring)) u) ∧
       (∀ u, u ∈ variables Examples.ring →
          ({[Examples.a1 := "ABA"%string]} : gmap Var string) !! u = None →
          domain_size (enforce_node_consistency (init_domains Examples.ring)) u
          = domain_size (enforce_node_consistency (init_domains Examples.ring)) v →
          degree Examples.ring u ≤ degree Examples.ring v).
Proof.
  apply (select_unassigned_variable_mrv_degree Examples.ring
           (enforce_node_consistency (init_domains Examples.ring))
           {[Examples.a1 := "ABA"%string]} Examples.d2).
  - by_evaluation.
  - by_evaluation.
  - by_evaluation.
Defined.

(** C7.  [order_domain_values] returns the words of the domain of [var],
    each once, in ascending order of their elimination count: the number of
    words, over the unassigned neighbors of [var], whose letter at the
    neighbor's overlap index differs from the word's letter at the overlap
    index of [var]. *)
Theorem order_domain_values_sorted cw (d : gmap Var (gset string))
    (a : gmap Var string) var X :
  wf_overlaps cw → node_consistent d → variables cw ⊆ dom d →
  var ∈ variables cw → d !! var = Some X →
  ∃ l, order_domain_values cw d var a = Done l ∧
       l ≡ₚ elements X ∧
       StronglySorted
         (λ w1 w2, elimination_count_spec cw d a var w1
                   ≤ elimination_count_spec cw d a var w2) l.
Proof.
  intros Hwf Hnc Hdom Hvar HX.
  exists (sorted (elimination_count_spec cw d a var) (elements X)).
  split_and!.
  - by apply order_domain_values_eq.
  - apply sorted_Permutation.
  - apply sorted_StronglySorted.
Qed.

Lemma order_domain_values_sorted_witness :
  ∃ l, order_domain_values Examples.ring
         (enforce_node_consistency (init_domains Examples.ring))
         Examples.d1 {[Examples.a1 := "ABA"%string]} = Done l ∧
       l ≡ₚ elements ({["BABAB"; "BXBBB"; "BEBAB"]}%string : gset string) ∧
       StronglySorted
         (λ w1 w2,
            elimination_count_spec Examples.ring
              (enforce_node_consistency (init_domains Examples.ring))
              {[Examples.a1 := "ABA"%string]} Examples.d1 w1
            ≤ elimination_count_spec Examples.ring
                (enforce_node_consistency (init_domains Examples.ring))
                {[Examples.a1 := "ABA"%string]} Examples.d1 w2) l.
Proof.
  apply (order_domain_values_sorted Examples.ring
           (enforce_node_consistency (init_domains Examples.ring))
           {[Examples.a1 := "ABA"%string]} Examples.d1).
  - apply grid_overlaps_wf.
  - apply enforce_node_consistent.
  - by_evaluation.
  - by_evaluation.
  - by_evaluation.
Defined.

(** C5.  A dict returned by [backtrack] started from the empty assignment
    maps every slot of the puzzle to a word, is complete for
    [assignment_complete] and passes [consistent]. *)
Theorem backtrack_sound cw (d : gmap Var (gset string)) fuel r n :
  backtrack cw d fuel ∅ = Done (r, true, n) →
  (∀ v, v ∈ variables cw → ∃ w, r !! v = Some w) ∧
  assignment_complete cw r = true ∧
  consistent cw r = Done true.
Proof.
  intros [Hc Hcons]%backtrack_sound_call.
  split_and!; [|done|].
  - intros v Hv.
    destruct (proj1 (assignment_complete_true cw r) Hc v Hv) as (w & ? & _).
    eauto.
  - destruct Hcons as [->|?]; [apply consistent_empty|done].
Qed.

Lemma backtrack_sound_witness :
  (∀ v, v ∈ variables Examples.ring →
     ∃ w, Examples.ring_solution !! v = Some w) ∧
  assignment_complete Examples.ring Examples.ring_solution = true ∧
  consistent Examples.ring Examples.ring_solution = Done true.
Proof.
  apply (backtrack_sound Examples.ring Examples.ring_domains 5
           Examples.ring_solution 5).
  by_evaluation.
Defined.

(** C1 (as stated it fails: see [solve_starts_backtrack_after_failed_ac3]).
    When [ac3] reports failure, [solve] ignores the report and calls
    [backtrack] on the empty assignment; that one activation selects a slot
    whose domain is empty, tries no value, makes no recursive call and
    returns the no-solution result. *)
Theorem solve_after_failed_ac3 cw d' :
  ac3 cw (enforce_node_consistency (init_domains cw)) None = Done (d', false) →
  solve cw = Done (None, 1).
Proof.
  intros Hac3. unfold solve. rewrite Hac3.
  apply ac3_false_empty in Hac3 as [Hdom (x & Hx & HX)].
  pose proof (backtrack_empty_domain cw d' (size (variables cw)) x) as Hbt.
  cbn -[backtrack]. rewrite Hbt; [done| |done..].
  by rewrite Hdom, enforce_node_consistency_dom, init_domains_dom.
Qed.

Lemma solve_after_failed_ac3_witness : solve Examples.clash = Done (None, 1).
Proof.
  apply (solve_after_failed_ac3 Examples.clash Examples.clash_after_ac3).
  by_evaluation.
Defined.

(** C1, counterexample: on two crossing slots without a common letter [ac3]
    reports failure and [solve] still activates [backtrack] once. *)
Lemma solve_starts_backtrack_after_failed_ac3 :
  ¬ short_circuits Examples.clash.
Proof.
  intros Hshort.
  assert (solve Examples.clash = Done (None, 1)) as Hsolve
    by by_evaluation.
  rewrite (Hshort Examples.clash_after_ac3) in Hsolve; [discriminate|].
  by_evaluation.
Qed.

(** C2 (the code differs).  On the ring puzzle, revising the arc
    [(d1, a1)] in the store left by node consistency removes a word from
    the domain of [d1] and leaves it non-empty; the arc added for the other
    neighbor [a2] of [d1] is [(d1, a2)], with [d1] first, and the arc
    [(a2, d1)] is not in the work list. *)
Theorem ac3_step_requeues_outgoing_arc :
  enforce_node_consistency (init_domains Examples.ring) = Examples.ring_domains ∧
  ac3_step Examples.ring Examples.ring_domains (Examples.d1, Examples.a1) []
  = Done (Running Examples.ring_revised [(Examples.d1, Examples.a2)]) ∧
  Examples.ring_revised !! Examples.d1 ≠ Examples.ring_domains !! Examples.d1 ∧
  Examples.ring_revised !! Examples.d1 ≠ Some ∅ ∧
  Examples.a2 ∈ neighbors Examples.ring Examples.d1 ∧
  Examples.a2 ≠ Examples.a1 ∧
  (Examples.a2, Examples.d1) ∉ [(Examples.d1, Examples.a2)].
Proof.
  split_and!.
  - by_evaluation.
  - by_evaluation.
  - by_evaluation.
  - by_evaluation.
  - by_evaluation.
  - discriminate.
  - by_evaluation.
Qed.

(** C3 (the code differs).  On the ring puzzle [ac3], started from all the
    arcs after node consistency, returns success and leaves a store that is
    not arc consistent: the word BBBC of [a2] has no support in the domain
    of its neighbor [d1]. *)
Theorem ac3_success_not_arc_consistent :
  ∃ d',
    ac3 Examples.ring (enforce_node_consistency (init_domains Examples.ring))
      None = Done (d', true) ∧
    ¬ arc_consistent Examples.ring d'.
Proof.
  exists Examples.ring_after_ac3. split; [by_evaluation|].
  intros Harc.
  destruct (Harc Examples.a2 Examples.d1 1 3
              {["BABA"; "BBBC"]}%string {["BABAB"; "BEBAB"]}%string
              "BBBC"%string)
    as (w' & c & Hw' & Hc & Hc'); try by_evaluation.
  simpl in Hc. simplify_eq.
  apply elem_of_union in Hw' as [Hw'|Hw']; apply elem_of_singleton in Hw';
    subst w'; discriminate.
Qed.
(** * Further properties of the solver *)

(** ** Propagation only narrows the store *)

Lemma store_le_refl d : store_le d d.
Proof. split; [done|]. intros v X HX. eauto. Qed.

Lemma store_le_trans d1 d2 d3 : store_le d1 d2 → store_le d2 d3 → store_le d1 d3.
Proof.
  intros [Hd12 H12] [Hd23 H23]. split; [congruence|].
  intros v X1 HX1. destruct (H12 _ _ HX1) as (X2 & HX2 & ?).
  destruct (H23 _ _ HX2) as (X3 & HX3 & ?). exists X3. split; [done|set_solver].
Qed.

Lemma revise_store_le cw d x y d' b :
  revise cw d x y = Done (d', b) → store_le d' d.
Proof.
  intros Hrev. split; [by eapply revise_dom|].
  apply revise_Done in Hrev
    as (ix & iy & X & Y & X' & _ & HX & _ & HX' & Hel & Hfr & _).
  intros v Z HZ. destruct (decide (v = x)) as [->|Hne].
  - simplify_eq. exists X. split; [done|]. intros w. rewrite Hel. tauto.
  - rewrite Hfr in HZ by done. eauto.
Qed.

Lemma ac3_loop_store_le cw :
  ∀ fuel d stack d' b,
    ac3_loop cw fuel d stack = Done (d', b) → store_le d' d.
Proof.
  induction fuel as [|fuel IH]; intros d stack d' b; destruct stack as [|[x y] rest];
    simpl; try (intros; simplify_eq; by apply store_le_refl).
  rewrite bind_Done. intros (st & Hstep & Hr).
  unfold ac3_step in Hstep. apply bind_Done in Hstep as ([d1 ch] & Hrev & Hstep).
  simpl in Hstep. apply revise_store_le in Hrev.
  destruct ch.
  - apply bind_Done in Hstep as (X' & _ & Hstep).
    destruct (decide (size X' = 0)); simplify_eq; [done|].
    eapply store_le_trans; [by eapply IH|done].
  - simplify_eq. eapply store_le_trans; [by eapply IH|done].
Qed.

(** ** Propagation keeps every solution *)

Lemma revise_within cw d x y d' b (s : gmap Var string) :
  solution cw s → valid_arc cw (x, y) → within d s →
  revise cw d x y = Done (d', b) → within d' s.
Proof.
  intros (Hdom & _ & _ & Hagree) [Hx Hy] Hin Hrev. simpl in *.
  apply revise_Done in Hrev
    as (ix & iy & X & Y & X' & Hov & HX & HY & HX' & Hel & Hfr & _).
  intros v w Hv. destruct (decide (v = x)) as [->|Hne].
  - exists X'. split; [done|]. apply Hel.
    destruct (Hin _ _ Hv) as (X0 & HX0 & Hw). simplify_eq. split; [done|].
    pose proof Hy as (Hyv & _)%elem_of_neighbors.
    rewrite <-Hdom in Hyv. apply elem_of_dom in Hyv as [wy Hwy].
    destruct (Hin _ _ Hwy) as (Y0 & HY0 & Hwy'). simplify_eq.
    destruct (Hagree x y w wy ix iy Hv Hwy Hy Hov) as (c & ? & ?).
    exists wy, c. done.
  - rewrite Hfr by done. eauto.
Qed.

Lemma ac3_loop_within cw (s : gmap Var string) :
  solution cw s →
  ∀ fuel d stack d' b,
    Forall (valid_arc cw) stack → within d s →
    ac3_loop cw fuel d stack = Done (d', b) →
    within d' s ∧ b = true.
Proof.
  intros Hsol.
  induction fuel as [|fuel IH]; intros d stack d' b Hst Hin;
    destruct stack as [|[x y] rest]; simpl; try (intros; by simplify_eq).
  apply Forall_cons in Hst as [Harc Hst].
  rewrite bind_Done. intros (st & Hstep & Hr).
  unfold ac3_step in Hstep. apply bind_Done in Hstep as ([d1 ch] & Hrev & Hstep).
  simpl in Hstep.
  pose proof (revise_within _ _ _ _ _ _ _ Hsol Harc Hin Hrev) as Hin1.
  destruct Harc as [Hx Hy]. simpl in *.
  destruct ch.
  - apply bind_Done in Hstep as (X' & HX'%of_option_Done & Hstep).
    destruct (decide (size X' = 0)) as [Hz|Hz]; simplify_eq.
    + exfalso. destruct Hsol as (Hdom & _).
      rewrite <-Hdom in Hx. apply elem_of_dom in Hx as [w Hw].
      destruct (Hin1 _ _ Hw) as (X0 & ? & Hw'). simplify_eq.
      apply size_empty_iff in Hz. set_solver.
    + eapply IH; [|exact Hin1|exact Hr]. by apply push_neighbors_valid.
  - simplify_eq. eapply IH; [|exact Hin1|exact Hr]. done.
Qed.

(** ** The search takes its words from the domains *)

Lemma order_domain_values_Done cw (d : gmap Var (gset string)) var
    (a : gmap Var string) l :
  order_domain_values cw d var a = Done l →
  ∃ X, d !! var = Some X ∧ l ≡ₚ elements X.
Proof.
  unfold order_domain_values. rewrite bind_Done.
  intros (X & HX%of_option_Done & H). exists X. split; [done|].
  apply bind_Done in H as (items & Hfold & ?); simplify_eq.
  rewrite sorted_Permutation.
  assert (∀ l acc items,
    fold_res (λ acc domain,
       c ← elimination_count cw d var
              (elements (foldl (λ cur neighbor,
                   if decide (neighbor ∈ dom a) then cur ∖ {[neighbor]} else cur)
                 (neighbors cw var) (elements (neighbors cw var)))) domain;
       Done (acc ++ [(domain, c)])) acc l = Done items →
    items.*1 = acc.*1 ++ l) as Hgen.
  { clear. induction l as [|w l IH]; intros acc items; simpl.
    - intros; simplify_eq. by rewrite app_nil_r.
    - rewrite bind_Done. intros (acc' & Hstep & Hrest).
      apply bind_Done in Hstep as (c & _ & ?); simplify_eq.
      rewrite (IH _ _ Hrest), fmap_app, <-app_assoc. done. }
  by rewrite (Hgen _ _ _ Hfold).
Qed.

Section within.
Context (cw : Crossword) (d : gmap Var (gset string)).

Lemma try_values_within rec var values X :
  within_call d rec → d !! var = Some X →
  ∀ (a : gmap Var string) calls r n,
    (∀ value, value ∈ values → value ∈ X) → restoring rec →
    a !! var = None → within d a →
    try_values cw rec var values a calls = Done (r, true, n) → within d r.
Proof.
  intros Hrec HX.
  induction values as [|value rest IH]; intros a calls r n Hvals Hrest Hvar Ha; simpl.
  - intros; by simplify_eq.
  - assert (within d (<[var:=value]> a)) as Ha1.
    { intros v w. destruct (decide (v = var)) as [->|Hne].
      - rewrite lookup_insert_eq. intros; simplify_eq. exists X. split; [done|].
        apply Hvals. by left.
      - rewrite lookup_insert_ne by done. apply Ha. }
    rewrite bind_Done. intros (ok & _ & H). destruct ok.
    + apply bind_Done in H as ([[a2 result] n'] & Hcall & H). simpl in H.
      destruct (result && bool_decide (a2 ≠ ∅)) eqn:Hres.
      * simplify_eq. apply andb_true_iff in Hres as [-> _]. eauto.
      * apply bind_Done in H as (a3 & [Hin ->]%del_Done & H).
        destruct result.
        -- simpl in Hres. apply bool_decide_eq_false in Hres.
           assert (a2 = ∅) as -> by (by destruct (decide (a2 = ∅))).
           rewrite lookup_empty in Hin. by destruct Hin.
        -- apply Hrest in Hcall as ->. rewrite delete_insert_id in H by done.
           eapply IH; [| | | |exact H]; try done.
           intros; apply Hvals; by right.
    + apply bind_Done in H as (a3 & [_ ->]%del_Done & H).
      rewrite delete_insert_id in H by done.
      eapply IH; [| | | |exact H]; try done.
      intros; apply Hvals; by right.
Qed.

Lemma backtrack_within fuel : within_call d (backtrack cw d fuel).
Proof.
  induction fuel as [|fuel IH]; intros a r n Ha; simpl; [done|].
  destruct (assignment_complete cw a); [intros; by simplify_eq|].
  rewrite bind_Done. intros (var & [_ Hvar]%select_unassigned_variable_Done & H).
  apply bind_Done in H as (values & (X & HX & Hperm)%order_domain_values_Done & H).
  eapply (try_values_within _ _ _ X IH HX); [| | | |exact H]; try done.
  - intros value Hv. rewrite Hperm in Hv. by apply elem_of_elements.
  - apply backtrack_restoring.
Qed.
End within.

(** ** [consistent] accepts every part of a solution *)

Lemma consistent_submap cw (a s : gmap Var string) :
  wf_overlaps cw → solution cw s → a ⊆ s → consistent cw a = Done true.
Proof.
  intros Hwf (Hdom & Hdist & Hlen & Hagree) Hsub.
  assert (dom a ⊆ variables cw) as Hda.
  { rewrite <-Hdom. by apply subseteq_dom. }
  destruct (consistent_total_iff cw a Hwf Hda) as (b & -> & Hb).
  f_equal. apply Hb. split_and!.
  - intros x y w Hx Hy. eapply Hdist; eapply lookup_weaken; eauto.
  - intros x w Hx. eapply Hlen, lookup_weaken; eauto.
  - intros x y wx wy ix iy Hx Hy. eapply Hagree; eapply lookup_weaken; eauto.
Qed.

(** ** The search finds a solution when there is one *)

Section complete.
Context (cw : Crossword) (d : gmap Var (gset string)).
Context (Hwf : wf_overlaps cw) (Hnc : node_consistent d).
Context (Hdom : variables cw ⊆ dom d).
Context (Hpos : ∀ v, v ∈ variables cw → 0 < var_length v).
Context (s : gmap Var string) (Hsol : solution cw s) (Hin : within d s).

Lemma submap_search_assignment (a : gmap Var string) :
  a ⊆ s → search_assignment cw a.
Proof.
  destruct Hsol as (Hds & _ & Hlen & _). intros Hsub. split.
  - rewrite <-Hds. by apply subseteq_dom.
  - intros x w Hx. eapply Hlen, lookup_weaken; eauto.
Qed.

Lemma try_values_complete rec var values ws :
  restoring rec → sound_call cw rec → var ∈ variables cw →
  s !! var = Some ws →
  ∀ (a : gmap Var string) calls,
    a ⊆ s → a !! var = None → ws ∈ values →
    (∀ value, search_assignment cw (<[var := value]> a) →
       ∃ r, rec (<[var := value]> a) = Done r) →
    (∃ r n, rec (<[var := ws]> a) = Done (r, true, n)) →
    ∃ r n, try_values cw rec var values a calls = Done (r, true, n).
Proof.
  intros Hrest Hsound Hvar Hws.
  induction values as [|value rest IH]; intros a calls Hsub Hnone Hmem Htot Hgood;
    simpl; [by apply elem_of_nil in Hmem|].
  pose proof (submap_search_assignment a Hsub) as Ha.
  assert (dom (<[var:=value]> a) ⊆ variables cw) as Hd1.
  { rewrite dom_insert_L. destruct Ha. set_solver. }
  destruct (consistent_total_iff cw (<[var:=value]> a) Hwf Hd1) as (ok & Hcons & Hok).
  rewrite Hcons. simpl. destruct ok.
  - destruct Hok as [(_ & Hlen & _) _]; [done|].
    destruct (Htot value) as [[[a2 result] n] Hr]; [by split|].
    rewrite Hr. simpl. destruct result; simpl.
    + destruct (Hsound _ _ _ Hr) as [Hc _].
      destruct (proj1 (assignment_complete_true cw a2) Hc var Hvar) as (w & Hw & _).
      rewrite bool_decide_eq_true_2; [eauto|].
      intros ->. by rewrite lookup_empty in Hw.
    + assert (value ≠ ws) as Hne.
      { intros ->. destruct Hgood as (r & n' & Hgood). congruence. }
      apply Hrest in Hr as ->. unfold del.
      rewrite decide_True by (rewrite lookup_insert_eq; eauto).
      simpl. rewrite delete_insert_id by done.
      apply IH; try done. apply elem_of_cons in Hmem as [?|?]; [congruence|done].
  - assert (value ≠ ws) as Hne.
    { intros ->.
      rewrite (consistent_submap cw (<[var:=ws]> a) s Hwf Hsol) in Hcons;
        [done|]. by apply insert_subseteq_l. }
    unfold del. rewrite decide_True by (rewrite lookup_insert_eq; eauto).
    simpl. rewrite delete_insert_id by done.
    apply IH; try done. apply elem_of_cons in Hmem as [?|?]; [congruence|done].
Qed.

Lemma backtrack_complete fuel :
  ∀ a : gmap Var string,
    a ⊆ s → size (variables cw ∖ dom a) < fuel →
    ∃ r n, backtrack cw d fuel a = Done (r, true, n).
Proof.
  induction fuel as [|fuel IH]; intros a Hsub Hfuel; [lia|]. simpl.
  pose proof (submap_search_assignment a Hsub) as Ha.
  destruct (assignment_complete cw a) eqn:Hc; [eauto|].
  destruct (incomplete_unassigned cw Hpos a Ha Hc) as (u & Hu & Hnone).
  rewrite select_unassigned_variable_eq by done.
  destruct (head_two_sorts (domain_size d) (degree cw)
              (filter (λ v, v ∉ dom a) (elements (variables cw))))
    as (var & -> & Hvin & _).
  { intros Hnil.
    assert (u ∈ filter (λ v, v ∉ dom a) (elements (variables cw))) as Hmem.
    { apply list_elem_of_filter. split; [by apply not_elem_of_dom|].
      by apply elem_of_elements. }
    rewrite Hnil in Hmem. by apply elem_of_nil in Hmem. }
  apply list_elem_of_filter in Hvin as [Hva Hvar%elem_of_elements].
  apply not_elem_of_dom in Hva. simpl.
  pose proof (Hdom var Hvar) as [X HX]%elem_of_dom.
  rewrite (order_domain_values_eq cw d a var X) by done. simpl.
  assert (is_Some (s !! var)) as [ws Hws].
  { apply elem_of_dom. destruct Hsol as [-> _]. done. }
  assert (∀ value,
    size (variables cw ∖ dom (<[var:=value]> a)) < fuel) as Hless.
  { intros value.
    assert (variables cw ∖ dom (<[var:=value]> a) ⊂ variables cw ∖ dom a) as Hss.
    { rewrite dom_insert_L. apply not_elem_of_dom in Hva. set_solver. }
    apply subset_size in Hss. lia. }
  apply (try_values_complete _ _ _ ws);
    [apply backtrack_restoring|apply backtrack_sound_call|done..| | |].
  - rewrite sorted_Permutation. apply elem_of_elements.
    destruct (Hin _ _ Hws) as (X0 & ? & ?). by simplify_eq.
  - intros value Hgood.
    apply (backtrack_total cw d Hwf Hnc Hdom Hpos); [done|apply Hless].
  - apply IH; [by apply insert_subseteq_l|apply Hless].
Qed.
End complete.

(** ** The store that [solve] searches *)

Lemma initial_store_lookup cw v :
  enforce_node_consistency (init_domains cw) !! v
  = if decide (v ∈ variables cw)
    then Some (filter (λ w, String.length w = var_length v) (words cw))
    else None.
Proof.
  rewrite enforce_node_consistency_lookup. unfold init_domains.
  destruct (decide (v ∈ variables cw)) as [Hv|Hv].
  - rewrite (proj2 (lookup_gset_to_gmap_Some _ _ _ _)) by done. simpl. f_equal.
    apply set_eq. intros w. rewrite node_filter_elem, elem_of_filter. tauto.
  - by rewrite (proj2 (lookup_gset_to_gmap_None _ _ _)).
Qed.

Lemma ac3_store_le cw d arcs d' b :
  ac3 cw d arcs = Done (d', b) → store_le d' d.
Proof. unfold ac3. apply ac3_loop_store_le. Qed.

Section solve.
Context (cw : Crossword) (Hwf : wf_overlaps cw).

Lemma solve_Done_inv r n :
  solve cw = Done (r, n) →
  ∃ d' b a result,
    ac3 cw (enforce_node_consistency (init_domains cw)) None = Done (d', b) ∧
    backtrack cw d' (S (size (variables cw))) ∅ = Done (a, result, n) ∧
    r = (if result : bool then Some a else None).
Proof.
  unfold solve. rewrite bind_Done. intros ([d' b] & Hac3 & H).
  cbn -[backtrack] in H. apply bind_Done in H as ([[a result] calls] & Hbt & H).
  cbn -[backtrack] in H. simplify_eq. eauto 10.
Qed.

Lemma solve_sound_aux r n :
  solve cw = Done (Some r, n) →
  solution cw r ∧ ∀ v w, r !! v = Some w → w ∈ words cw.
Proof.
  intros (d' & b & a & result & Hac3 & Hbt & Heq)%solve_Done_inv.
  destruct result; [|done]. injection Heq as Heq. subst a.
  pose proof (ac3_store_le _ _ _ _ _ Hac3) as [Hdom Hle].
  rewrite enforce_node_consistency_dom, init_domains_dom in Hdom.
  destruct (backtrack_sound_call _ _ _ _ _ _ Hbt) as [Hc Hcons].
  assert (consistent cw r = Done true) as Hcons'
    by (destruct Hcons as [->|?]; [apply consistent_empty|done]).
  assert (within d' r) as Hin.
  { eapply backtrack_within; [|exact Hbt]. by intros v w ?%lookup_empty_Some. }
  assert (dom r = variables cw) as Hdr.
  { apply set_eq. intros v. split.
    - intros [w Hw]%elem_of_dom. destruct (Hin _ _ Hw) as (X & HX & _).
      rewrite <-Hdom. apply elem_of_dom. eauto.
    - intros Hv.
      destruct (proj1 (assignment_complete_true cw r) Hc v Hv) as (w & Hw & _).
      apply elem_of_dom. eauto. }
  split.
  - split; [done|].
    destruct (consistent_total_iff cw r Hwf) as (b' & Hb' & Hiff);
      [by rewrite Hdr|].
    rewrite Hcons' in Hb'. simplify_eq. by apply Hiff.
  - intros v w Hw. destruct (Hin _ _ Hw) as (X' & HX' & Hw').
    destruct (Hle _ _ HX') as (X & HX & Hsub).
    rewrite initial_store_lookup in HX. destruct (decide _); [|done].
    simplify_eq. apply Hsub in Hw'. by apply elem_of_filter in Hw' as [_ ?].
Qed.

Lemma initial_store_within (s : gmap Var string) :
  solution cw s → (∀ v w, s !! v = Some w → w ∈ words cw) →
  within (enforce_node_consistency (init_domains cw)) s.
Proof.
  intros (Hdom & _ & Hlen & _) Hwords v w Hw. eexists.
  rewrite initial_store_lookup, decide_True.
  2:{ rewrite <-Hdom. apply elem_of_dom. eauto. }
  split; [done|]. apply elem_of_filter. eauto.
Qed.

Lemma solve_complete_aux (s : gmap Var string) :
  (∀ v, v ∈ variables cw → 0 < var_length v) →
  solution cw s → (∀ v w, s !! v = Some w → w ∈ words cw) →
  ∃ r n, solve cw = Done (Some r, n).
Proof.
  intros Hpos Hsol Hwords. unfold solve.
  pose proof (enforce_node_consistent (init_domains cw)) as Hnc.
  pose proof (enforce_node_consistency_dom (init_domains cw)) as Hd.
  rewrite init_domains_dom in Hd.
  destruct (ac3_total cw _ Hwf Hnc) as (d' & b & Hac3); [by rewrite Hd|].
  rewrite Hac3. cbn -[backtrack].
  unfold ac3 in Hac3. simpl in Hac3.
  pose proof (ac3_loop_dom _ _ _ _ _ _ Hac3) as Hd'.
  pose proof (ac3_loop_node_consistent _ _ _ _ _ _ Hac3 Hnc) as Hnc'.
  destruct (ac3_loop_within cw s Hsol _ _ _ _ _
              (proj2 (Forall_reverse _ _) (all_arcs_valid cw))
              (initial_store_within s Hsol Hwords) Hac3) as [Hin _].
  destruct (backtrack_complete cw d' Hwf Hnc') with (s := s)
      (fuel := S (size (variables cw))) (a := (∅ : gmap Var string))
    as (r & n & ->); try done.
  - by rewrite Hd', Hd.
  - apply map_empty_subseteq.
  - assert (size (variables cw ∖ dom (∅ : gmap Var string)) ≤ size (variables cw));
      [apply subseteq_size; set_solver|lia].
  - simpl. eauto.
Qed.

Lemma solve_unfillable_aux x :
  x ∈ variables cw →
  (∀ w, w ∈ words cw → String.length w ≠ var_length x) →
  solve cw = Done (None, 1).
Proof.
  intros Hx Hnone. unfold solve.
  pose proof (enforce_node_consistent (init_domains cw)) as Hnc.
  pose proof (enforce_node_consistency_dom (init_domains cw)) as Hd.
  rewrite init_domains_dom in Hd.
  destruct (ac3_total cw _ Hwf Hnc) as (d' & b & Hac3); [by rewrite Hd|].
  rewrite Hac3. cbn -[backtrack].
  destruct (ac3_store_le _ _ _ _ _ Hac3) as [Hdom Hle].
  rewrite (backtrack_empty_domain cw d' _ x); [done| |done|].
  - by rewrite Hdom, Hd.
  - assert (is_Some (d' !! x)) as [X' HX'].
    { apply elem_of_dom. by rewrite Hdom, Hd. }
    destruct (Hle _ _ HX') as (X & HX & Hsub).
    rewrite initial_store_lookup, decide_True in HX by done. simplify_eq.
    rewrite HX'. f_equal. apply set_eq. intros w. split; [|set_solver].
    intros [Hlen Hw]%Hsub%elem_of_filter. by destruct (Hnone w).
Qed.
End solve.

(** ** Edge cases of the propagation and of the heuristics *)

Lemma all_arcs_no_crossing cw :
  (∀ x, x ∈ variables cw → neighbors cw x = ∅) → all_arcs cw = [].
Proof.
  intros Hno. unfold all_arcs.
  assert (∀ l, (∀ x, x ∈ l → neighbors cw x = ∅) →
            (l ≫= λ x, elements (neighbors cw x) ≫= λ y, [(x, y)]) = []) as H.
  { induction l as [|x l IH]; intros Hl; [done|].
    rewrite bind_cons, (Hl x) by (by left). rewrite elements_empty. simpl.
    apply IH. intros; apply Hl; by right. }
  apply H. intros x ?%elem_of_elements. auto.
Qed.

Lemma node_filter_idemp v X : node_filter v (node_filter v X) = node_filter v X.
Proof. apply set_eq. intros w. rewrite !node_filter_elem. tauto. Qed.

Lemma sorted_constant {A} (key : A → nat) c l :
  (∀ x, x ∈ l → key x = c) → sorted key l = l.
Proof.
  induction l as [|x l IH]; intros Hc; [done|].
  unfold sorted in *. simpl. rewrite IH by (intros; apply Hc; by right).
  destruct l as [|y l]; [done|]. simpl.
  rewrite decide_True; [done|].
  rewrite (Hc x), (Hc y) by set_solver. done.
Qed.

Lemma select_fold_all_assigned cw (d : gmap Var (gset string))
    (a : gmap Var string) l :
  (∀ v, v ∈ l → v ∈ dom a) →
  fold_res (λ acc variable,
      if decide (variable ∈ dom a) then Done acc
      else
        dv ← of_option (d !! variable);
        Done (acc ++ [(variable, (size dv, size (neighbors cw variable)))]))
    [] l = Done [].
Proof.
  induction l as [|v l IH]; intros Hl; simpl; [done|].
  rewrite decide_True by (apply Hl; by left). simpl.
  apply IH. intros; apply Hl; by right.
Qed.

Lemma elimination_count_nil cw d var w : elimination_count cw d var [] w = Done 0.
Proof. done. Qed.

Lemma order_fold_zero cw (d : gmap Var (gset string)) var l :
  ∀ acc,
    fold_res (λ acc domain,
        c ← elimination_count cw d var [] domain;
        Done (acc ++ [(domain, c)])) acc l
    = Done (acc ++ ((λ w, (w, 0)) <$> l)).
Proof.
  induction l as [|w l IH]; intros acc; simpl; [by rewrite app_nil_r|].
  rewrite IH, <-app_assoc. done.
Qed.

(** ** [letter_grid] *)

Lemma fold_res_app {A S} (f : S → A → res S) s l1 l2 :
  fold_res f s (l1 ++ l2) = fold_res f s l1 ≫= λ s', fold_res f s' l2.
Proof.
  revert s. induction l1 as [|x l1 IH]; intros s; simpl; [done|].
  destruct (f s x); simpl; auto.
Qed.

Lemma list_ascii_lookup w : ∀ k, list_ascii_of_string w !! k = String.get k w.
Proof.
  induction w as [|c w IH]; intros k; simpl; [by destruct k|].
  destruct k; simpl; auto.
Qed.

Lemma list_ascii_length w : length (list_ascii_of_string w) = String.length w.
Proof. induction w; simpl; auto. Qed.

Lemma get_Some_lt w k c : String.get k w = Some c → k < String.length w.
Proof.
  rewrite <-list_ascii_lookup, <-list_ascii_length. apply lookup_lt_Some.
Qed.

Lemma write_word_writes letters item :
  write_word letters item = apply_writes letters (word_writes item).
Proof.
  destruct item as [v w]. unfold write_word, word_writes, apply_writes. simpl.
  assert (∀ suf n g,
    (∀ k, String.get (n + k) w = String.get k suf) →
    fold_res (λ letters k,
        c ← letter w k; set_cell letters (cell_of v k).1 (cell_of v k).2 c)
      g (seq n (String.length suf))
    = fold_res (λ letters (write : nat * nat * ascii),
          set_cell letters write.1.1 write.1.2 write.2)
        g (imap (λ k c, (cell_of v (n + k), c)) (list_ascii_of_string suf)))
    as Hgen.
  { induction suf as [|c suf IH]; intros n g Hget; [done|].
    assert (letter w n = Done c) as Hl.
    { unfold letter. pose proof (Hget 0) as H0. rewrite Nat.add_0_r in H0.
      by rewrite H0. }
    cbn [String.length seq fold_res list_ascii_of_string imap].
    rewrite Hl. cbn [mbind res_bind]. rewrite Nat.add_0_r.
    cbn [fst snd].
    destruct (set_cell g _ _ c) as [g'| |]; cbn [mbind res_bind]; [|done..].
    rewrite (IH (S n)).
    - f_equal. apply imap_ext. intros k c' _. simpl. by rewrite Nat.add_succ_r.
    - intros k. pose proof (Hget (S k)) as Hk. simpl in Hk.
      rewrite <-Hk. f_equal. lia. }
  apply (Hgen w 0). done.
Qed.

Lemma letter_grid_writes height width (a : gmap Var string) :
  letter_grid height width a
  = apply_writes (replicate height (replicate width None))
      (map_to_list a ≫= word_writes).
Proof.
  unfold letter_grid. generalize (replicate height (replicate width (@None ascii))).
  induction (map_to_list a) as [|item l IH]; intros g; [done|].
  rewrite bind_cons. unfold apply_writes. rewrite fold_res_app. simpl.
  rewrite write_word_writes. unfold apply_writes.
  destruct (fold_res _ g (word_writes item)) as [g'| |]; simpl; [|done..].
  apply IH.
Qed.

Lemma elem_of_writes (a : gmap Var string) cell c :
  (cell, c) ∈ map_to_list a ≫= word_writes ↔
  ∃ v w k, a !! v = Some w ∧ String.get k w = Some c ∧ cell_of v k = cell.
Proof.
  rewrite list_elem_of_bind. split.
  - intros ([v w] & Hin & Hitem%elem_of_map_to_list).
    unfold word_writes in Hin. simpl in Hin.
    apply list_elem_of_lookup in Hin as [i Hi].
    rewrite list_lookup_imap in Hi.
    destruct (list_ascii_of_string w !! i) as [c'|] eqn:E; simpl in Hi; [|done].
    simplify_eq. rewrite list_ascii_lookup in E. eauto 10.
  - intros (v & w & k & Hv & Hk & <-). exists (v, w).
    split; [|by apply elem_of_map_to_list].
    unfold word_writes. simpl. apply list_elem_of_lookup. exists k.
    rewrite list_lookup_imap, list_ascii_lookup, Hk. done.
Qed.

Lemma grid_shape_replicate height width :
  grid_shape height width (replicate height (replicate width None)).
Proof.
  split; [apply length_replicate|].
  apply Forall_replicate. apply length_replicate.
Qed.

Lemma grid_at_replicate height width cell :
  cell.1 < height → cell.2 < width →
  grid_at (replicate height (replicate width None)) cell = Some None.
Proof.
  intros Hi Hj. unfold grid_at.
  rewrite lookup_replicate_2 by done. simpl. by rewrite lookup_replicate_2.
Qed.

Lemma set_cell_Done height width g i j c g' :
  grid_shape height width g → set_cell g i j c = Done g' →
  i < height ∧ j < width ∧ grid_shape height width g' ∧
  ∀ cell, grid_at g' cell
          = if decide (cell = (i, j)) then Some (Some c) else grid_at g cell.
Proof.
  intros [Hlen Hrows] Hset. unfold set_cell in Hset.
  apply bind_Done in Hset as (row & Hrow%of_option_Done & Hset).
  destruct (decide (j < length row)) as [Hj|]; [|done]. simplify_eq.
  assert (length row = width) as Hw.
  { rewrite Forall_forall in Hrows. apply Hrows. by eapply list_elem_of_lookup_2. }
  pose proof (lookup_lt_Some _ _ _ Hrow) as Hi.
  split_and!; [done|lia| |].
  - split; [by rewrite length_insert|].
    apply Forall_insert; [done|]. by rewrite length_insert.
  - intros [i' j']. unfold grid_at. simpl.
    destruct (decide ((i', j') = (i, j))) as [Heq|Hne].
    + simplify_eq. rewrite list_lookup_insert_eq by done. simpl.
      by rewrite list_lookup_insert_eq.
    + destruct (decide (i' = i)) as [->|Hi'].
      * rewrite list_lookup_insert_eq by done. simpl. rewrite Hrow. simpl.
        rewrite list_lookup_insert_ne; [done|]. intros ->. done.
      * by rewrite list_lookup_insert_ne.
Qed.

Lemma set_cell_total height width g i j c :
  grid_shape height width g → i < height → j < width →
  ∃ g', set_cell g i j c = Done g'.
Proof.
  intros [Hlen Hrows] Hi Hj. unfold set_cell.
  destruct (lookup_lt_is_Some_2 g i) as [row Hrow]; [lia|]. rewrite Hrow. simpl.
  assert (length row = width) as Hw.
  { rewrite Forall_forall in Hrows. apply Hrows. by eapply list_elem_of_lookup_2. }
  rewrite decide_True by lia. eauto.
Qed.

Lemma elem_of_writes_fst (writes : list (nat * nat * ascii)) cell :
  cell ∈ writes.*1 ↔ ∃ c, (cell, c) ∈ writes.
Proof.
  rewrite list_elem_of_fmap. split.
  - intros ([cell' c] & -> & ?). eauto.
  - intros [c ?]. by exists (cell, c).
Qed.

(** What a sequence of writes leaves in the grid. *)
Lemma apply_writes_Done height width writes :
  ∀ g g',
    grid_shape height width g → apply_writes g writes = Done g' →
    grid_shape height width g' ∧
    Forall (λ write : nat * nat * ascii,
              write.1.1 < height ∧ write.1.2 < width) writes ∧
    (∀ cell, (∀ c, (cell, c) ∉ writes) → grid_at g' cell = grid_at g cell) ∧
    (∀ cell, (∃ c, (cell, c) ∈ writes) →
       ∃ c, (cell, c) ∈ writes ∧ grid_at g' cell = Some (Some c)).
Proof.
  unfold apply_writes.
  induction writes as [|[[i j] c] writes IH]; intros g g' Hshape; simpl.
  - intros; simplify_eq. split_and!; [done|constructor|done|].
    intros cell [c Hc]. by apply elem_of_nil in Hc.
  - rewrite bind_Done. intros (g1 & Hset & Hrest).
    destruct (set_cell_Done _ _ _ _ _ _ _ Hshape Hset) as (Hi & Hj & Hshape1 & Hat).
    destruct (IH _ _ Hshape1 Hrest) as (Hshape' & Hall & Hkeep & Hlast).
    split_and!; [done|by constructor| |].
    + intros cell Hnone. rewrite Hkeep.
      * rewrite Hat. rewrite decide_False; [done|].
        intros ->. apply (Hnone c). by left.
      * intros c' Hc'. apply (Hnone c'). by right.
    + intros cell [c0 Hc0].
      destruct (decide (cell ∈ writes.*1)) as [Hlater|Hnot];
        rewrite elem_of_writes_fst in *.
      * destruct (Hlast cell Hlater) as (c' & ? & ?). exists c'.
        split; [by right|done].
      * apply elem_of_cons in Hc0 as [Heq|Hc0]; [|by destruct Hnot; eauto].
        simplify_eq. exists c. split; [by left|].
        rewrite Hkeep by (intros c' Hc'; apply Hnot; eauto).
        rewrite Hat. by rewrite decide_True.
Qed.

Lemma apply_writes_total height width writes :
  ∀ g,
    grid_shape height width g →
    Forall (λ write : nat * nat * ascii,
              write.1.1 < height ∧ write.1.2 < width) writes →
    ∃ g', apply_writes g writes = Done g'.
Proof.
  unfold apply_writes.
  induction writes as [|[[i j] c] writes IH]; intros g Hshape Hall; simpl; [eauto|].
  apply Forall_cons in Hall as [[Hi Hj] Hall]. simpl in *.
  destruct (set_cell_total _ _ g i j c Hshape Hi Hj) as [g1 Hset].
  rewrite Hset. simpl.
  destruct (set_cell_Done _ _ _ _ _ _ _ Hshape Hset) as (_ & _ & Hshape1 & _).
  by apply IH.
Qed.

(** * Further properties, function by function *)

(** Helpers to settle the hypotheses of concrete instances. *)
Lemma consistent_solution cw (s : gmap Var string) :
  wf_overlaps cw → dom s = variables cw → consistent cw s = Done true →
  solution cw s.
Proof.
  intros Hwf Hdom Hcons. split; [done|].
  destruct (consistent_total_iff cw s Hwf) as (b & Hb & Hiff); [by rewrite Hdom|].
  rewrite Hcons in Hb. simplify_eq. by apply Hiff.
Qed.

Lemma within_from_lookups (d : gmap Var (gset string)) (a : gmap Var string) :
  map_Forall (λ v w, is_Some (d !! v) ∧ w ∈ d !!! v) a → within d a.
Proof.
  intros Hall v w Hw. destruct (Hall v w Hw) as [[X HX] Hin].
  exists X. split; [done|]. by rewrite lookup_total_alt, HX in Hin.
Qed.

Lemma fits_from_lookups height width (a : gmap Var string) :
  map_Forall (λ v w,
    Forall (λ k, (cell_of v k).1 < height ∧ (cell_of v k).2 < width)
           (seq 0 (String.length w))) a →
  fits height width a.
Proof.
  intros Hall v w k Hw Hk. specialize (Hall v w Hw).
  rewrite Forall_forall in Hall. apply Hall, elem_of_seq. lia.
Qed.

Lemma cells_agree_from_writes (a : gmap Var string) :
  Forall (λ w1 : nat * nat * ascii,
    Forall (λ w2 : nat * nat * ascii, w1.1 = w2.1 → w1.2 = w2.2)
           (map_to_list a ≫= word_writes))
    (map_to_list a ≫= word_writes) →
  cells_agree a.
Proof.
  intros Hall v1 w1 k1 c1 v2 w2 k2 c2 Hv1 Hk1 Hv2 Hk2 Hcell.
  rewrite Forall_forall in Hall.
  assert ((cell_of v1 k1, c1) ∈ map_to_list a ≫= word_writes) as H1
    by (apply elem_of_writes; eauto 10).
  assert ((cell_of v2 k2, c2) ∈ map_to_list a ≫= word_writes) as H2
    by (apply elem_of_writes; eauto 10).
  specialize (Hall _ H1). rewrite Forall_forall in Hall.
  by apply (Hall _ H2).
Qed.

(** ** [__init__] and [enforce_node_consistency] *)

(** X1.  After construction and node consistency the store has exactly the
    slots of the puzzle as keys, and the domain of a slot is the set of the
    vocabulary words of the slot's length. *)
Theorem initial_store cw v :
  enforce_node_consistency (init_domains cw) !! v
  = if decide (v ∈ variables cw)
    then Some (filter (λ w, String.length w = var_length v) (words cw))
    else None.
Proof. apply initial_store_lookup. Qed.

(** X2.  Node consistency is idempotent: enforcing it a second time changes
    nothing. *)
Theorem enforce_node_consistency_idempotent (d : gmap Var (gset string)) :
  enforce_node_consistency (enforce_node_consistency d)
  = enforce_node_consistency d.
Proof.
  apply map_eq. intros v. rewrite !enforce_node_consistency_lookup.
  destruct (d !! v) as [X|]; simpl; [|done]. by rewrite node_filter_idemp.
Qed.

(** ** [revise] *)

(** X3.  On a node-consistent store, [revise(x, y)] for neighboring slots
    returns; it leaves in the domain of [x] exactly the words that have a
    support in the domain of [y], and its boolean tells whether a word was
    removed. *)
Theorem revise_removes_unsupported cw (d : gmap Var (gset string)) x y :
  wf_overlaps cw → node_consistent d → variables cw ⊆ dom d →
  x ∈ variables cw → y ∈ neighbors cw x →
  ∃ d' b ix iy X Y X',
    revise cw d x y = Done (d', b) ∧
    overlaps cw x y = Some (ix, iy) ∧
    d !! x = Some X ∧ d !! y = Some Y ∧ d' !! x = Some X' ∧
    (∀ w, w ∈ X' ↔ w ∈ X ∧ has_support ix iy Y w) ∧
    (b = true ↔ ∃ w, w ∈ X ∧ w ∉ X').
Proof.
  intros Hwf Hnc Hdom Hx Hy.
  destruct (revise_total_wf cw d x y Hwf Hnc Hdom) as (d' & b & Hrev);
    [by split|].
  pose proof Hrev as (ix & iy & X & Y & X' & Hov & HX & HY & HX' & Hel & _ & Hb & _)
    %revise_Done.
  exists d', b, ix, iy, X, Y, X'. split_and!; try done.
  rewrite Hb. split; intros (w & Hw & Hn); exists w; (split; [done|]).
  - rewrite Hel. tauto.
  - intros Hs. apply Hn, Hel. done.
Qed.

Lemma revise_removes_unsupported_witness :
  ∃ d' b ix iy X Y X',
    revise Examples.ring Examples.ring_domains Examples.d1 Examples.a1
    = Done (d', b) ∧
    overlaps Examples.ring Examples.d1 Examples.a1 = Some (ix, iy) ∧
    Examples.ring_domains !! Examples.d1 = Some X ∧
    Examples.ring_domains !! Examples.a1 = Some Y ∧ d' !! Examples.d1 = Some X' ∧
    (∀ w, w ∈ X' ↔ w ∈ X ∧ has_support ix iy Y w) ∧
    (b = true ↔ ∃ w, w ∈ X ∧ w ∉ X').
Proof.
  apply (revise_removes_unsupported Examples.ring Examples.ring_domains
           Examples.d1 Examples.a1).
  - apply grid_overlaps_wf.
  - replace Examples.ring_domains
      with (enforce_node_consistency (init_domains Examples.ring))
      by by_evaluation.
    apply enforce_node_consistent.
  - by_evaluation.
  - by_evaluation.
  - by_evaluation.
Defined.

(** X4.  [revise] is idempotent: called again for the same arc on the
    store it returned, it removes nothing and returns false. *)
Theorem revise_twice cw (d : gmap Var (gset string)) x y :
  wf_overlaps cw → node_consistent d → variables cw ⊆ dom d →
  x ∈ variables cw → y ∈ neighbors cw x →
  ∃ d' b, revise cw d x y = Done (d', b) ∧
          revise cw d' x y = Done (d', false).
Proof.
  intros Hwf Hnc Hdom Hx Hy.
  destruct (revise_total_wf cw d x y Hwf Hnc Hdom) as (d' & b & Hrev);
    [by split|].
  exists d', b. split; [done|].
  pose proof Hrev as (ix & iy & X & Y & X' & Hov & HX & HY & HX' & Hel & Hfr & _)
    %revise_Done.
  assert (y ≠ x) as Hne by (by apply elem_of_neighbors in Hy as (_ & ? & _)).
  destruct (revise_total_wf cw d' x y Hwf) as (d2 & b2 & Hrev2);
    [by eapply revise_node_consistent
    |by rewrite (revise_dom _ _ _ _ _ _ Hrev)|by split|].
  pose proof Hrev2 as (ix2 & iy2 & Z & Y2 & Z2 & Hov2 & HZ & HY2 & _ & _ & _ & Hb & Hid)
    %revise_Done.
  rewrite Hfr in HY2 by done. simplify_eq.
  destruct b2; [|by rewrite (Hid eq_refl) in Hrev2].
  destruct Hb as [Hb _]. destruct (Hb eq_refl) as (w & Hw & Hn).
  by apply Hel in Hw as [_ ?].
Qed.

Lemma revise_twice_witness :
  ∃ d' b,
    revise Examples.ring Examples.ring_domains Examples.d1 Examples.a1
    = Done (d', b) ∧
    revise Examples.ring d' Examples.d1 Examples.a1 = Done (d', false).
Proof.
  apply (revise_twice Examples.ring Examples.ring_domains
           Examples.d1 Examples.a1).
  - apply grid_overlaps_wf.
  - replace Examples.ring_domains
      with (enforce_node_consistency (init_domains Examples.ring))
      by by_evaluation.
    apply enforce_node_consistent.
  - by_evaluation.
  - by_evaluation.
  - by_evaluation.
Defined.

(** ** [ac3] *)

(** X5.  On a node-consistent store [ac3] returns, without raising; the
    store it leaves has the same keys, is still node consistent, and has no
    word that the store did not have. *)
Theorem ac3_returns_narrower_store cw (d : gmap Var (gset string)) :
  wf_overlaps cw → node_consistent d → variables cw ⊆ dom d →
  ∃ d' b, ac3 cw d None = Done (d', b) ∧
          store_le d' d ∧ node_consistent d'.
Proof.
  intros Hwf Hnc Hdom.
  destruct (ac3_total cw d Hwf Hnc Hdom) as (d' & b & Hac3).
  exists d', b. split_and!; [done| |].
  - by eapply ac3_store_le.
  - unfold ac3 in Hac3. by eapply ac3_loop_node_consistent.
Qed.

Lemma ac3_returns_narrower_store_witness :
  ∃ d' b,
    ac3 Examples.ring (enforce_node_consistency (init_domains Examples.ring))
      None = Done (d', b) ∧
    store_le d' (enforce_node_consistency (init_domains Examples.ring)) ∧
    node_consistent d'.
Proof.
  apply (ac3_returns_narrower_store Examples.ring
           (enforce_node_consistency (init_domains Examples.ring))).
  - apply grid_overlaps_wf.
  - apply enforce_node_consistent.
  - by_evaluation.
Defined.

(** X6.  [ac3] returns false only when the store it leaves has a slot of
    the puzzle with an empty domain. *)
Theorem ac3_failure_empties_a_domain cw (d d' : gmap Var (gset string)) :
  ac3 cw d None = Done (d', false) →
  ∃ x, x ∈ variables cw ∧ d' !! x = Some ∅.
Proof. intros Hac3. by apply ac3_false_empty in Hac3 as [_ ?]. Qed.

Lemma ac3_failure_empties_a_domain_witness :
  ∃ x, x ∈ variables Examples.clash ∧ Examples.clash_after_ac3 !! x = Some ∅.
Proof.
  apply (ac3_failure_empties_a_domain Examples.clash
           (enforce_node_consistency (init_domains Examples.clash))
           Examples.clash_after_ac3).
  by_evaluation.
Defined.

(** X7.  On a puzzle whose slots do not cross, [ac3] has no arc to revise:
    it returns true and leaves the store as it is, whatever the store holds,
    empty domains included. *)
Theorem ac3_without_crossings cw (d : gmap Var (gset string)) :
  (∀ x, x ∈ variables cw → neighbors cw x = ∅) →
  ac3 cw d None = Done (d, true).
Proof.
  intros Hno. unfold ac3. cbn [default].
  rewrite all_arcs_no_crossing by done. by destruct (ac3_fuel cw d []).
Qed.

Lemma ac3_without_crossings_witness :
  ac3 Puzzles.apart (init_domains Puzzles.apart) None
  = Done (init_domains Puzzles.apart, true).
Proof.
  apply (ac3_without_crossings Puzzles.apart (init_domains Puzzles.apart)).
  change (set_Forall (λ x, neighbors Puzzles.apart x = ∅)
            (variables Puzzles.apart)).
  by_evaluation.
Defined.

(** X8.  [ac3] keeps every solution: the words of a solution that lies
    within the store are never removed, and [ac3] then returns true. *)
Theorem ac3_keeps_solutions cw (d d' : gmap Var (gset string))
    (s : gmap Var string) b :
  solution cw s → within d s →
  ac3 cw d None = Done (d', b) →
  within d' s ∧ b = true.
Proof.
  intros Hsol Hin Hac3. unfold ac3 in Hac3. simpl in Hac3.
  eapply (ac3_loop_within cw s Hsol); [|exact Hin|exact Hac3].
  apply Forall_reverse, all_arcs_valid.
Qed.

Lemma ac3_keeps_solutions_witness :
  within Examples.ring_after_ac3 Examples.ring_solution ∧ true = true.
Proof.
  apply (ac3_keeps_solutions Examples.ring Examples.ring_domains
           Examples.ring_after_ac3 Examples.ring_solution true).
  - apply consistent_solution; [apply grid_overlaps_wf|by_evaluation..].
  - apply within_from_lookups. by_evaluation.
  - by_evaluation.
Defined.

(** ** [consistent] *)

(** X9.  [consistent] accepts every part of a solution: it never prunes a
    partial assignment that can be completed. *)
Theorem consistent_accepts_parts_of_solutions cw (a s : gmap Var string) :
  wf_overlaps cw → solution cw s → a ⊆ s → consistent cw a = Done true.
Proof. apply consistent_submap. Qed.

Lemma consistent_accepts_parts_of_solutions_witness :
  consistent Examples.ring
    {[Examples.a1 := "ABA"%string; Examples.d1 := "BABAB"%string]} = Done true.
Proof.
  apply (consistent_accepts_parts_of_solutions Examples.ring
           {[Examples.a1 := "ABA"%string; Examples.d1 := "BABAB"%string]}
           Examples.ring_solution).
  - apply grid_overlaps_wf.
  - apply consistent_solution; [apply grid_overlaps_wf|by_evaluation..].
  - by_evaluation.
Defined.

(** ** The ordering heuristics *)

(** X10.  When every slot of the puzzle is in the assignment,
    [select_unassigned_variable] has nothing to return and raises (the index
    error of [remaining_values[0]]). *)
Theorem select_unassigned_variable_none_left cw
    (d : gmap Var (gset string)) (a : gmap Var string) :
  variables cw ⊆ dom a → select_unassigned_variable cw d a = Raise.
Proof.
  intros Hall. unfold select_unassigned_variable.
  rewrite select_fold_all_assigned; [done|].
  intros v ?%elem_of_elements. by apply Hall.
Qed.

Lemma select_unassigned_variable_none_left_witness :
  select_unassigned_variable Examples.ring Examples.ring_domains
    Examples.ring_solution = Raise.
Proof.
  apply (select_unassigned_variable_none_left Examples.ring
           Examples.ring_domains Examples.ring_solution).
  by_evaluation.
Defined.

(** X11.  When every neighbor of [var] is assigned (or [var] has none),
    all elimination counts are zero and [order_domain_values] returns the
    words of the domain in the order in which the domain gives them, without
    reading any letter. *)
Theorem order_domain_values_neighbors_assigned cw
    (d : gmap Var (gset string)) (a : gmap Var string) var X :
  d !! var = Some X → neighbors cw var ⊆ dom a →
  order_domain_values cw d var a = Done (elements X).
Proof.
  intros HX Hall. unfold order_domain_values. rewrite HX. simpl.
  set (nbrs := foldl _ _ _).
  assert (nbrs = ∅) as ->.
  { apply set_eq. intros n. unfold nbrs.
    rewrite foldl_remove_elem, elem_of_elements. set_solver. }
  rewrite elements_empty, order_fold_zero. simpl.
  rewrite (sorted_constant _ 0).
  - rewrite <-list_fmap_compose. f_equal. apply list_fmap_id.
  - by intros [w n] (w' & ? & _)%list_elem_of_fmap; simplify_eq.
Qed.

Lemma order_domain_values_neighbors_assigned_witness :
  order_domain_values Examples.ring Examples.ring_domains Examples.a2
    {[Examples.d1 := "BABAB"%string; Examples.d2 := "ABABBB"%string]}
  = Done (elements ({["BABA"; "BBBC"]}%string : gset string)).
Proof.
  apply (order_domain_values_neighbors_assigned Examples.ring
           Examples.ring_domains
           {[Examples.d1 := "BABAB"%string; Examples.d2 := "ABABBB"%string]}
           Examples.a2).
  - by_evaluation.
  - by_evaluation.
Defined.

(** ** [backtrack] *)

(** X12.  When [backtrack] returns [None], the assignment dict is as it was
    at the call: every tentative entry has been removed again. *)
Theorem backtrack_failure_restores cw (d : gmap Var (gset string)) fuel
    (a r : gmap Var string) n :
  backtrack cw d fuel a = Done (r, false, n) → r = a.
Proof. apply backtrack_restoring. Qed.

Lemma backtrack_failure_restores_witness :
  ({[Examples.h2 := "AB"%string]} : gmap Var string)
  = {[Examples.h2 := "AB"%string]}.
Proof.
  apply (backtrack_failure_restores Examples.clash
           (enforce_node_consistency (init_domains Examples.clash)) 3
           {[Examples.h2 := "AB"%string]} {[Examples.h2 := "AB"%string]} 1).
  by_evaluation.
Defined.

(** X13.  A dict returned by [backtrack] holds, for every slot that the
    search assigned, a word of the domain of that slot: started from an
    assignment within the store, it returns an assignment within the
    store. *)
Theorem backtrack_takes_words_from_domains cw (d : gmap Var (gset string))
    fuel (a r : gmap Var string) n :
  within d a → backtrack cw d fuel a = Done (r, true, n) → within d r.
Proof. apply backtrack_within. Qed.

Lemma backtrack_takes_words_from_domains_witness :
  within Examples.ring_domains Examples.ring_solution.
Proof.
  apply (backtrack_takes_words_from_domains Examples.ring
           Examples.ring_domains 5 ∅ Examples.ring_solution 5).
  - apply within_from_lookups. by_evaluation.
  - by_evaluation.
Defined.

(** X14.  The search is complete: on a node-consistent store that holds a
    solution of the puzzle, [backtrack] started from the empty assignment
    returns an assignment, within the budget of one activation per slot. *)
Theorem backtrack_finds_a_solution cw (d : gmap Var (gset string))
    (s : gmap Var string) :
  wf_overlaps cw → node_consistent d → variables cw ⊆ dom d →
  (∀ v, v ∈ variables cw → 0 < var_length v) →
  solution cw s → within d s →
  ∃ r n, backtrack cw d (S (size (variables cw))) ∅ = Done (r, true, n).
Proof.
  intros Hwf Hnc Hdom Hpos Hsol Hin.
  apply (backtrack_complete cw d Hwf Hnc Hdom Hpos s Hsol Hin).
  - apply map_empty_subseteq.
  - assert (size (variables cw ∖ dom (∅ : gmap Var string)) ≤ size (variables cw));
      [apply subseteq_size; set_solver|lia].
Qed.

Lemma backtrack_finds_a_solution_witness :
  ∃ r n,
    backtrack Examples.ring
      (enforce_node_consistency (init_domains Examples.ring))
      (S (size (variables Examples.ring))) ∅ = Done (r, true, n).
Proof.
  apply (backtrack_finds_a_solution Examples.ring
           (enforce_node_consistency (init_domains Examples.ring))
           Examples.ring_solution).
  - apply grid_overlaps_wf.
  - apply enforce_node_consistent.
  - by_evaluation.
  - change (set_Forall (λ v, 0 < var_length v) (variables Examples.ring)).
    by_evaluation.
  - apply consistent_solution; [apply grid_overlaps_wf|by_evaluation..].
  - apply within_from_lookups. by_evaluation.
Defined.

(** ** [solve] *)

(** X15.  On a puzzle whose slots have a positive length and whose overlap
    indices lie inside the slots, [solve] returns a result: no indexing and
    no dict access of the pipeline raises. *)
Theorem solve_returns cw :
  wf_overlaps cw → (∀ v, v ∈ variables cw → 0 < var_length v) →
  ∃ r n, solve cw = Done (r, n).
Proof. apply solve_total. Qed.

Lemma solve_returns_witness : ∃ r n, solve Examples.clash = Done (r, n).
Proof.
  apply (solve_returns Examples.clash).
  - apply grid_overlaps_wf.
  - change (set_Forall (λ v, 0 < var_length v) (variables Examples.clash)).
    by_evaluation.
Defined.

(** X16.  An assignment returned by [solve] is a solution of the puzzle
    made of vocabulary words: it assigns exactly the slots of the puzzle,
    to pairwise distinct words of the vocabulary, each of the length of its
    slot, that agree at every crossing. *)
Theorem solve_sound cw (r : gmap Var string) n :
  wf_overlaps cw → solve cw = Done (Some r, n) →
  solution cw r ∧ ∀ v w, r !! v = Some w → w ∈ words cw.
Proof. intros Hwf. by apply solve_sound_aux. Qed.

Lemma solve_sound_witness :
  solution Examples.ring Examples.ring_solution ∧
  ∀ v w, Examples.ring_solution !! v = Some w → w ∈ words Examples.ring.
Proof.
  apply (solve_sound Examples.ring Examples.ring_solution 9).
  - apply grid_overlaps_wf.
  - by_evaluation.
Defined.

(** X17.  [solve] is complete: on a puzzle whose slots have a positive
    length, it returns an assignment exactly when the puzzle has a solution
    made of vocabulary words; the arcs that [ac3] fails to revise again lose
    no solution. *)
Theorem solve_complete cw :
  wf_overlaps cw → (∀ v, v ∈ variables cw → 0 < var_length v) →
  (∃ s : gmap Var string,
     solution cw s ∧ ∀ v w, s !! v = Some w → w ∈ words cw) ↔
  (∃ r n, solve cw = Done (Some r, n)).
Proof.
  intros Hwf Hpos. split.
  - intros (s & Hsol & Hwords). by eapply solve_complete_aux.
  - intros (r & n & Hsolve). exists r. by eapply solve_sound_aux.
Qed.

Lemma solve_complete_witness :
  (∃ s : gmap Var string,
     solution Examples.clash s ∧
     ∀ v w, s !! v = Some w → w ∈ words Examples.clash) ↔
  (∃ r n, solve Examples.clash = Done (Some r, n)).
Proof.
  apply (solve_complete Examples.clash).
  - apply grid_overlaps_wf.
  - change (set_Forall (λ v, 0 < var_length v) (variables Examples.clash)).
    by_evaluation.
Defined.

(** X18.  When the vocabulary has no word of the length of some slot,
    [solve] returns the no-solution result after a single activation of
    [backtrack], whatever [ac3] returned. *)
Theorem solve_unfillable_slot cw x :
  wf_overlaps cw → x ∈ variables cw →
  (∀ w, w ∈ words cw → String.length w ≠ var_length x) →
  solve cw = Done (None, 1).
Proof. intros Hwf. by apply solve_unfillable_aux. Qed.

Lemma solve_unfillable_slot_witness :
  solve Puzzles.unfillable = Done (None, 1).
Proof.
  apply (solve_unfillable_slot Puzzles.unfillable (mkVar 0 0 ACROSS 3)).
  - apply grid_overlaps_wf.
  - by_evaluation.
  - change (set_Forall (λ w, String.length w ≠ 3) (words Puzzles.unfillable)).
    by_evaluation.
Defined.

(** ** [letter_grid] *)

Lemma fits_writes height width (a : gmap Var string) :
  fits height width a ↔
  Forall (λ write : nat * nat * ascii,
            write.1.1 < height ∧ write.1.2 < width)
    (map_to_list a ≫= word_writes).
Proof.
  rewrite Forall_forall. split.
  - intros Hfits [cell c] (v & w & k & Hv & Hk & <-)%elem_of_writes. simpl.
    apply (Hfits v w k Hv). by eapply get_Some_lt.
  - intros Hall v w k Hv Hk. destruct (get_lt w k Hk) as [c Hc].
    apply (Hall (cell_of v k, c)). apply elem_of_writes. eauto 10.
Qed.

Lemma grid_at_replicate_inv height width cell c :
  grid_at (replicate height (replicate width None)) cell ≠ Some (Some c).
Proof.
  unfold grid_at. intros H.
  destruct (replicate height (replicate width None) !! cell.1) as [row|] eqn:E;
    simpl in H; [|done].
  apply lookup_replicate in E as [-> _].
  by apply lookup_replicate in H as [? _].
Qed.

(** X19.  [letter_grid] returns exactly when every letter of every
    assigned word falls inside the grid, and raises otherwise; the grid it
    returns has [height] rows of [width] cells. *)
Theorem letter_grid_returns_iff_fits height width (a : gmap Var string) :
  (fits height width a → ∃ g, letter_grid height width a = Done g) ∧
  (∀ g, letter_grid height width a = Done g →
        fits height width a ∧ grid_shape height width g).
Proof.
  rewrite letter_grid_writes. split.
  - intros Hfits%fits_writes.
    apply (apply_writes_total height width); [apply grid_shape_replicate|done].
  - intros g Hg.
    destruct (apply_writes_Done height width _ _ _
                (grid_shape_replicate height width) Hg) as (Hshape & Hall & _).
    split; [by apply fits_writes|done].
Qed.

Lemma letter_grid_returns_iff_fits_witness :
  ∃ g, letter_grid 7 5 Examples.ring_solution = Done g.
Proof.
  apply (proj1 (letter_grid_returns_iff_fits 7 5 Examples.ring_solution)).
  apply fits_from_lookups. by_evaluation.
Defined.

(** X20.  Every letter in the grid is the letter of an assigned word at a
    position that falls on that cell. *)
Theorem letter_grid_letters_from_words height width (a : gmap Var string)
    g cell c :
  letter_grid height width a = Done g →
  grid_at g cell = Some (Some c) →
  ∃ v w k, a !! v = Some w ∧ String.get k w = Some c ∧ cell_of v k = cell.
Proof.
  rewrite letter_grid_writes. intros Hg Hcell.
  destruct (apply_writes_Done height width _ _ _
              (grid_shape_replicate height width) Hg) as (_ & _ & Hkeep & Hlast).
  destruct (decide (cell ∈ (map_to_list a ≫= word_writes).*1)) as [Hin|Hnot];
    rewrite elem_of_writes_fst in *.
  - destruct (Hlast cell Hin) as (c' & Hc' & Hat).
    rewrite Hat in Hcell. simplify_eq. by apply elem_of_writes.
  - rewrite Hkeep in Hcell by (intros c' ?; apply Hnot; eauto).
    by apply grid_at_replicate_inv in Hcell.
Qed.

Lemma letter_grid_letters_from_words_witness :
  ∃ v w k, Examples.ring_solution !! v = Some w ∧
           String.get k w = Some "A"%char ∧ cell_of v k = (1, 1).
Proof.
  apply (letter_grid_letters_from_words 7 5 Examples.ring_solution
           Puzzles.ring_grid (1, 1) "A"%char).
  - by_evaluation.
  - by_evaluation.
Defined.

(** X21.  When the assigned words carry the same letter wherever they share
    a cell, the grid shows every letter of every assigned word at its
    cell. *)
Theorem letter_grid_shows_words height width (a : gmap Var string)
    g v w k c :
  letter_grid height width a = Done g → cells_agree a →
  a !! v = Some w → String.get k w = Some c →
  grid_at g (cell_of v k) = Some (Some c).
Proof.
  rewrite letter_grid_writes. intros Hg Hagree Hv Hk.
  destruct (apply_writes_Done height width _ _ _
              (grid_shape_replicate height width) Hg) as (_ & _ & _ & Hlast).
  destruct (Hlast (cell_of v k)) as (c' & Hc' & ->).
  { exists c. apply elem_of_writes. eauto 10. }
  apply elem_of_writes in Hc' as (v' & w' & k' & Hv' & Hk' & Hcell).
  by rewrite (Hagree _ _ _ _ _ _ _ _ Hv' Hk' Hv Hk Hcell).
Qed.

Lemma letter_grid_shows_words_witness :
  grid_at Puzzles.ring_grid (cell_of Examples.a2 3) = Some (Some "A"%char).
Proof.
  apply (letter_grid_shows_words 7 5 Examples.ring_solution Puzzles.ring_grid
           Examples.a2 "BABA"%string 3 "A"%char).
  - by_evaluation.
  - apply cells_agree_from_writes. by_evaluation.
  - by_evaluation.
  - by_evaluation.
Defined.

(** X22.  A cell of the grid on which no letter of an assigned word falls
    holds [None]. *)
Theorem letter_grid_blank_elsewhere height width (a : gmap Var string)
    g cell :
  letter_grid height width a = Done g →
  cell.1 < height → cell.2 < width →
  (∀ v w k, a !! v = Some w → k < String.length w → cell_of v k ≠ cell) →
  grid_at g cell = Some None.
Proof.
  rewrite letter_grid_writes. intros Hg Hi Hj Hfree.
  destruct (apply_writes_Done height width _ _ _
              (grid_shape_replicate height width) Hg) as (_ & _ & Hkeep & _).
  rewrite Hkeep; [by apply grid_at_replicate|].
  intros c (v & w & k & Hv & Hk & Hcell)%elem_of_writes.
  apply (Hfree v w k Hv); [by eapply get_Some_lt|done].
Qed.

Lemma letter_grid_blank_elsewhere_witness :
  grid_at Puzzles.ring_grid (0, 2) = Some None.
Proof.
  apply (letter_grid_blank_elsewhere 7 5 Examples.ring_solution
           Puzzles.ring_grid (0, 2)).
  - by_evaluation.
  - simpl. lia.
  - simpl. lia.
  - intros v w k Hin%elem_of_map_to_list Hk.
    assert (Forall (λ item : Var * string,
              Forall (λ k, cell_of item.1 k ≠ (0, 2))
                     (seq 0 (String.length item.2)))
              (map_to_list Examples.ring_solution)) as Hall by by_evaluation.
    rewrite Forall_forall in Hall. specialize (Hall _ Hin).
    rewrite Forall_forall in Hall. apply (Hall k), elem_of_seq. simpl. lia.
Defined.

